(** * The realtime indexing store of Ponder

    A shallow embedding of
    [packages/core/src/indexing-store/realtime.ts]: the store that user
    indexing functions write through ([find], [insert], [update],
    [delete], [sql]).

    The store is a thin layer over a SQL database: every method checks
    its table argument, builds one or more SQL statements and hands them
    to the database.  Store methods are therefore embedded as programs
    over a small statement language ([Prog]); the database itself is
    given a reference semantics on tables of rows. *)

From Stdlib Require Import ZArith.
From stdpp Require Import base option list strings gmap fin_maps.


(** ** Values, objects, rows *)

(** A column value.  Rows never hold SQL NULL: an absent column is
    represented by an absent field. *)
Inductive Value :=
| VNum (z : Z)
| VStr (s : string)
| VBool (b : bool).

#[global] Instance Value_eq_dec : EqDecision Value.
Proof. solve_decision. Defined.

(** A JavaScript object used as a row, as a key or as a [set] argument:
    a finite map from (js) column names to values. *)
Abbreviation Obj := (gmap string Value).

(** What the store needs to know about a drizzle table object. *)
Record Table := {
  tbl_name : string;           (* getTableConfig(table).name *)
  tbl_user : string;           (* tableName.user of getTableNames *)
  tbl_onchain : bool;          (* onchain in table *)
  tbl_pk : list string;        (* getPrimaryKeyColumns(table), js names *)
}.

#[global] Instance Table_eq_dec : EqDecision Table.
Proof. solve_decision. Defined.

(** ** Errors *)

(** Errors raised by the database. *)
Inductive DbErr :=
| UniqueViolation        (* duplicate key value violates unique constraint *)
| NotNullViolation       (* null value violates not-null constraint *)
| CardinalityViolation   (* ON CONFLICT DO UPDATE cannot affect row a second time *)
| RawError (msg : string).

#[global] Instance DbErr_eq_dec : EqDecision DbErr.
Proof. solve_decision. Defined.

(** Errors a store method can reject with. *)
Inductive Error :=
| UndefinedTableError (msg : string)
| InvalidStoreMethodError (msg : string)
| RecordNotFoundError (msg : string)
| TypeError                       (* primaryKeysCache.get(table)! is undefined *)
| DrizzleError (msg : string)     (* the query builder refuses its argument *)
| SqlError (e : DbErr).

#[global] Instance Error_eq_dec : EqDecision Error.
Proof. solve_decision. Defined.

(** ** Statements *)

(** [eq(table[js], key[js])] for each primary-key column, joined by
    [and].  A key that lacks the field compares against [undefined]. *)
Abbreviation Where := (list (string * option Value)).

Inductive OnConflict :=
| NoClause
| DoNothing
| DoUpdate (target : list string) (set : Obj).

#[global] Instance OnConflict_eq_dec : EqDecision OnConflict.
Proof. solve_decision. Defined.

(** The statements the store builds with drizzle.  Every write ends in
    [.returning()]. *)
Inductive Stmt :=
| Select (t : Table) (w : Where)
| Insert (t : Table) (vs : list Obj) (oc : OnConflict)
| Update (t : Table) (set : Obj) (w : Where)
| Delete (t : Table) (w : Where).

#[global] Instance Stmt_eq_dec : EqDecision Stmt.
Proof. solve_decision. Defined.

(** ** Database state *)

(** Checkpoint of the event being indexed. *)
Record Checkpoint := {
  blockTimestamp : Z;
  chainId : Z;
  blockNumber : Z;
  transactionIndex : Z;
  eventIndex : Z;
}.

#[global] Instance Checkpoint_eq_dec : EqDecision Checkpoint.
Proof. solve_decision. Defined.

Inductive Operation := OpInsert | OpUpdate | OpDelete.

#[global] Instance Operation_eq_dec : EqDecision Operation.
Proof. solve_decision. Defined.

(** A row of the journal table [{instance_id}_reorg__T]. *)
Record JournalRow := {
  j_operation : Operation;
  j_checkpoint : Checkpoint;
  j_primary_key : list (option Value);
  j_before_image : option Obj;
}.

#[global] Instance JournalRow_eq_dec : EqDecision JournalRow.
Proof. solve_decision. Defined.

(** The two physical tables behind a logical table [T]:
    [{instance_id}__T] and [{instance_id}_reorg__T]. *)
Record TableData := {
  td_rows : list Obj;
  td_reorg : list JournalRow;
}.

#[global] Instance TableData_eq_dec : EqDecision TableData.
Proof. solve_decision. Defined.

#[global] Instance TableData_inhabited : Inhabited TableData :=
  populate {| td_rows := []; td_reorg := [] |}.

(** The user schema of the database, by table name.  A table without an
    entry holds no rows. *)
Abbreviation Database := (gmap string TableData).

(** ** Reference semantics of the statements

    The database is PostgreSQL, reached through drizzle; neither is code
    of the store.  The statements are given their meaning on a table
    held as the list of its rows, with the primary key as the only
    constraint: an [INSERT] appends the proposed rows, a key that is
    taken raises the unique violation unless an [ON CONFLICT] clause
    says otherwise, [UPDATE] overwrites the fields of [set] in the rows
    selected, [DELETE] removes them, and a statement that fails changes
    nothing. *)

(** One row-level effect of a statement. *)
Inductive Change :=
| Inserted (new : Obj)
| Updated (old new : Obj)
| Deleted (old : Obj).

Definition cond_holds (r : Obj) (c : string * option Value) : bool :=
  match c.2, r !! c.1 with
  | Some v, Some x => bool_decide (x = v)
  | _, _ => false
  end.

(** The [and] of the conditions.  A comparison with a missing value (a
    key without the field, a row without the column) is never true. *)
Definition matches (w : Where) (r : Obj) : bool := forallb (cond_holds r) w.

(** [conditions.push(eq(table[js], key[js]))] for each column. *)
Definition key_conditions (cols : list string) (key : Obj) : Where :=
  (λ js, (js, key !! js)) <$> cols.

Definition key_of (cols : list string) (o : Obj) : list (option Value) :=
  (λ c, o !! c) <$> cols.

(** [r] occupies the key of [v] on the columns [cols]. *)
Definition conflicts (cols : list string) (v r : Obj) : bool :=
  matches (key_conditions cols v) r.

(** Primary-key columns are NOT NULL.  Constraints other than the
    primary key are outside this model. *)
Definition row_ok (t : Table) (r : Obj) : bool :=
  forallb (λ c, bool_decide (is_Some (r !! c))) (tbl_pk t).

(** Result of a statement on one table: the rows of [RETURNING], the new
    contents of the table, and the row-level changes made. *)
Abbreviation Outcome := (DbErr + (list Obj * list Obj * list Change))%type.

Definition select_rows (w : Where) (cur : list Obj) : Outcome :=
  inr (filter (λ r, matches w r = true) cur, cur, []).

Definition delete_rows (w : Where) (cur : list Obj) : Outcome :=
  let gone := filter (λ r, matches w r = true) cur in
  inr (gone, filter (λ r, matches w r = false) cur, Deleted <$> gone).

(** A rewritten row must not land on the key of another row. *)
Definition key_free (t : Table) (r' : Obj) (others : list Obj) : bool :=
  forallb (λ r, negb (conflicts (tbl_pk t) r' r)) others.

Fixpoint update_rows (t : Table) (set : Obj) (w : Where)
    (seen cur : list Obj) : Outcome :=
  match cur with
  | [] => inr ([], seen, [])
  | r :: rest =>
      if matches w r then
        let r' := set ∪ r in
        if key_free t r' (seen ++ rest) then
          match update_rows t set w (seen ++ [r']) rest with
          | inl e => inl e
          | inr (ret, new, chs) => inr (r' :: ret, new, Updated r r' :: chs)
          end
        else inl UniqueViolation
      else update_rows t set w (seen ++ [r]) rest
  end.

(** One proposed row of an [INSERT]. *)
Definition insert_row (t : Table) (oc : OnConflict) (v : Obj)
    (cur : list Obj) : Outcome :=
  if negb (row_ok t v) then inl NotNullViolation else
  match oc with
  | NoClause =>
      if existsb (conflicts (tbl_pk t) v) cur then inl UniqueViolation
      else inr ([v], cur ++ [v], [Inserted v])
  | DoNothing =>
      if existsb (conflicts (tbl_pk t) v) cur then inr ([], cur, [])
      else inr ([v], cur ++ [v], [Inserted v])
  | DoUpdate target set =>
      if existsb (conflicts target v) cur
      then update_rows t set (key_conditions target v) [] cur
      else if existsb (conflicts (tbl_pk t) v) cur then inl UniqueViolation
      else inr ([v], cur ++ [v], [Inserted v])
  end.

Fixpoint insert_rows (t : Table) (oc : OnConflict) (vs : list Obj)
    (cur : list Obj) : Outcome :=
  match vs with
  | [] => inr ([], cur, [])
  | v :: vs' =>
      match insert_row t oc v cur with
      | inl e => inl e
      | inr (ret1, cur1, chs1) =>
          match insert_rows t oc vs' cur1 with
          | inl e => inl e
          | inr (ret2, cur2, chs2) => inr (ret1 ++ ret2, cur2, chs1 ++ chs2)
          end
      end
  end.

(** No two proposed rows of an upsert may name the same key. *)
Fixpoint distinct_keys (cols : list string) (vs : list Obj) : bool :=
  match vs with
  | [] => true
  | v :: vs' => negb (existsb (conflicts cols v) vs') && distinct_keys cols vs'
  end.

Definition stmt_table (s : Stmt) : Table :=
  match s with
  | Select t _ | Insert t _ _ | Update t _ _ | Delete t _ => t
  end.

Definition run_stmt (s : Stmt) (cur : list Obj) : Outcome :=
  match s with
  | Select _ w => select_rows w cur
  | Insert t vs oc =>
      match oc with
      | DoUpdate target set =>
          if distinct_keys target vs then insert_rows t oc vs cur
          else inl CardinalityViolation
      | _ => insert_rows t oc vs cur
      end
  | Update t set w => update_rows t set w [] cur
  | Delete _ w => delete_rows w cur
  end.

(** Modelled from the spec: the journal ("Every write also produces a
    journal row in [{instance_id}_reorg__T] with the event's checkpoint
    and, for updates/deletes, a [before_image] read inside the same
    transaction"; "[before_image] is null for inserts").  The code that
    fills the journal is not part of the store: it belongs to the
    database set-up. *)
Definition journal_row (cp : Checkpoint) (pk : list string) (c : Change)
    : JournalRow :=
  match c with
  | Inserted new =>
      {| j_operation := OpInsert; j_checkpoint := cp;
         j_primary_key := key_of pk new; j_before_image := None |}
  | Updated old _ =>
      {| j_operation := OpUpdate; j_checkpoint := cp;
         j_primary_key := key_of pk old; j_before_image := Some old |}
  | Deleted old =>
      {| j_operation := OpDelete; j_checkpoint := cp;
         j_primary_key := key_of pk old; j_before_image := Some old |}
  end.

Definition rows_of (db : Database) (t : Table) : list Obj :=
  td_rows (db !!! tbl_name t).

Definition journal_of (db : Database) (t : Table) : list JournalRow :=
  td_reorg (db !!! tbl_name t).

(** Modelled from the spec: the commit of a write ("Journal rows are
    inserted atomically with the user write they shadow").  The code
    that ties the journal to the user tables is not part of the store.
    The new rows of the table and the journal rows of the changes are
    written in one step. *)
Definition commit (cp : Checkpoint) (t : Table) (new : list Obj)
    (chs : list Change) (db : Database) : Database :=
  <[tbl_name t :=
      {| td_rows := new;
         td_reorg := journal_of db t ++ (journal_row cp (tbl_pk t) <$> chs) |}]> db.

(** A statement is one transaction: it either fails and leaves the
    database as it was, or commits.  A statement that changes no row
    writes nothing. *)
Definition exec (cp : Checkpoint) (s : Stmt) (db : Database)
    : (DbErr + list Obj) * Database :=
  let t := stmt_table s in
  match run_stmt s (rows_of db t) with
  | inl e => (inl e, db)
  | inr (ret, _, []) => (inr ret, db)
  | inr (ret, new, chs) => (inr ret, commit cp t new chs db)
  end.

(** ** Programs over the database *)

(** Rows of a raw query, fields in column order. *)
Abbreviation RawRows := (list (list (string * Value))).

(** A raw SQL query of the [sql] escape hatch, given by its effect. *)
Definition RawQuery : Type := Database → (DbErr + RawRows) * Database.

(** The asynchronous body of a store method: it settles with a value or
    an error, or awaits a statement and continues with its result. *)
Inductive Prog (A : Type) : Type :=
| Ret (a : A)
| Throw (e : Error)
| Exec (s : Stmt) (k : DbErr + list Obj → Prog A)
| ExecRaw (q : RawQuery) (k : DbErr + RawRows → Prog A).

Arguments Ret {A} a.
Arguments Throw {A} e.
Arguments Exec {A} s k.
Arguments ExecRaw {A} q k.

Fixpoint bind {A B} (p : Prog A) (f : A → Prog B) : Prog B :=
  match p with
  | Ret a => f a
  | Throw e => Throw e
  | Exec s k => Exec s (λ r, bind (k r) f)
  | ExecRaw q k => ExecRaw q (λ r, bind (k r) f)
  end.

#[global] Instance Prog_ret : MRet Prog := @Ret.
#[global] Instance Prog_bind : MBind Prog := λ A B f p, bind p f.

(** What the database saw. *)
Inductive Event :=
| Sent (s : Stmt)
| SentRaw.

#[global] Instance Event_eq_dec : EqDecision Event.
Proof. solve_decision. Defined.

Record Run (A : Type) := {
  result : Error + A;
  final : Database;
  trace : list Event;
}.

Arguments result {A} r.
Arguments final {A} r.
Arguments trace {A} r.

(** Runs a body to completion with nothing else touching the database. *)
Fixpoint run {A} (cp : Checkpoint) (p : Prog A) (db : Database) : Run A :=
  match p with
  | Ret a => {| result := inr a; final := db; trace := [] |}
  | Throw e => {| result := inl e; final := db; trace := [] |}
  | Exec s k =>
      let '(r, db1) := exec cp s db in
      let rest := run cp (k r) db1 in
      {| result := result rest; final := final rest;
         trace := Sent s :: trace rest |}
  | ExecRaw q k =>
      let '(r, db1) := q db in
      let rest := run cp (k r) db1 in
      {| result := result rest; final := final rest;
         trace := SentRaw :: trace rest |}
  end.

(** [try { return await stmt } catch (e) { parseSqlError(e); throw e; }]:
    the error that was caught is the error that is thrown. *)
Definition query (s : Stmt) : Prog (list Obj) :=
  Exec s (λ r, match r with inl e => Throw (SqlError e) | inr rows => Ret rows end).

(** ** The store

    Every method hands its body to [queue.add] wrapped in
    [database.qb.user.wrap({ method }, body)].  The wrapper belongs to
    the database layer, not to the store; it is taken to run the body
    it is given and to pass on its result or error. *)

Inductive Method := MFind | MInsert | MUpdate | MDelete.

Definition method_name (m : Method) : string :=
  match m with
  | MFind => "find"
  | MInsert => "insert"
  | MUpdate => "update"
  | MDelete => "delete"
  end.

(** Throw an error if [table] is not an [onchainTable].  [None] is the
    [undefined] table reference; on success the table is known to be
    defined and onchain. *)
Definition checkOnchainTable (table : option Table) (method : Method)
    : Prog Table :=
  match table with
  | None =>
      Throw (UndefinedTableError
               ("Table object passed to db." +:+ method_name method
                  +:+ "() is undefined"))
  | Some t =>
      if tbl_onchain t then Ret t
      else
        Throw (InvalidStoreMethodError
                 (match method with
                  | MFind =>
                      "db.find() can only be used with onchain tables, and '"
                        +:+ tbl_name t +:+ "' is an offchain table."
                  | _ =>
                      "Indexing functions can only write to onchain tables, and '"
                        +:+ tbl_name t +:+ "' is an offchain table."
                  end))
  end.

(** [createRealtimeIndexingStore({ database, schema })]: the store keeps
    the tables enumerated by [getTableNames(schema, "")]. *)
Record Store := { schema : list Table }.

Definition tableNameCache (st : Store) : list (Table * string) :=
  (λ t, (t, tbl_user t)) <$> schema st.

Definition primaryKeysCache (st : Store) : list (Table * list string) :=
  (λ t, (t, tbl_pk t)) <$> schema st.

(** [Map.get] *)
Definition cache_get {V} (cache : list (Table * V)) (t : Table) : option V :=
  (λ hit, hit.2.2) <$> list_find (λ entry, entry.1 = t) cache.

(** Returns an sql where condition for [table] with [key]. *)
Definition getWhereCondition (st : Store) (t : Table) (key : Obj)
    : Prog Where :=
  match cache_get (primaryKeysCache st) t with
  | None => Throw TypeError
  | Some pks => Ret (key_conditions pks key)
  end.

(** [select().from(table).where(...)], then
    [res.length === 0 ? null : res[0]]. *)
Definition find (st : Store) (t : Table) (key : Obj) : Prog (option Obj) :=
  w ← getWhereCondition st t key;
  res ← query (Select t w);
  Ret (head res).

(** The [values] argument of [insert(table).values(values)]. *)
Inductive Values :=
| One (value : Obj)
| Many (values : list Obj).

Definition values_list (values : Values) : list Obj :=
  match values with
  | One value => [value]
  | Many vs => vs
  end.

(** [.values(values)]: drizzle refuses an empty array before anything is
    sent. *)
Definition builder_values (values : Values) : Prog (list Obj) :=
  match values_list values with
  | [] => Throw (DrizzleError "values() must be called with at least one value")
  | vs => Ret vs
  end.

(** [.set(values)], also the [set] of [onConflictDoUpdate]: drizzle
    refuses an object without fields before anything is sent. *)
Definition builder_set (set : Obj) : Prog Obj :=
  if bool_decide (set = ∅) then Throw (DrizzleError "No values to set")
  else Ret set.

(** The argument of [set] and of [onConflictDoUpdate]: an object, or a
    function of the existing row. *)
Inductive SetArg :=
| SetObj (o : Obj)
| SetFn (f : Obj → Obj).

(** What a store method resolves to. *)
Inductive Returned :=
| RRow (row : option Obj)
| RRows (rows : list Obj)
| RBatches (rows : list (list Obj))
| RBool (b : bool)
| RRaw (rows : list (list Value)).

(** [indexingStore.find] *)
Definition store_find (st : Store) (table : option Table) (key : Obj)
    : Prog Returned :=
  t ← checkOnchainTable table MFind;
  row ← find st t key;
  Ret (RRow row).

(** [insert(table).values(values).onConflictDoNothing()] *)
Definition insert_onConflictDoNothing (st : Store) (table : option Table)
    (values : Values) : Prog Returned :=
  t ← checkOnchainTable table MInsert;
  vs ← builder_values values;
  rows ← query (Insert t vs DoNothing);
  Ret (RRows rows).

(** [find] one value, then insert it or update the row found. *)
Definition upsert_one (st : Store) (t : Table) (valuesU : Obj → Obj)
    (value : Obj) : Prog (list Obj) :=
  row ← find st t value;
  match row with
  | None => query (Insert t [value] NoClause)
  | Some row =>
      set ← builder_set (valuesU row);
      w ← getWhereCondition st t value;
      query (Update t set w)
  end.

(** [for (const value of values) { ... rows.push(...) }] *)
Fixpoint upsert_each (st : Store) (t : Table) (valuesU : Obj → Obj)
    (values : list Obj) (rows : list (list Obj)) : Prog (list (list Obj)) :=
  match values with
  | [] => Ret rows
  | value :: rest =>
      r ← upsert_one st t valuesU value;
      upsert_each st t valuesU rest (rows ++ [r])
  end.

(** [insert(table).values(values).onConflictDoUpdate(valuesU)]: a native
    upsert when [valuesU] is an object, otherwise value by value. *)
Definition insert_onConflictDoUpdate (st : Store) (table : option Table)
    (values : Values) (valuesU : SetArg) : Prog Returned :=
  t ← checkOnchainTable table MInsert;
  match valuesU with
  | SetObj o =>
      vs ← builder_values values;
      match cache_get (primaryKeysCache st) t with
      | None => Throw TypeError
      | Some target =>
          set ← builder_set o;
          rows ← query (Insert t vs (DoUpdate target set));
          Ret (RRows rows)
      end
  | SetFn f =>
      match values with
      | Many vs =>
          rows ← upsert_each st t f vs [];
          Ret (RBatches rows)
      | One value =>
          rows ← upsert_one st t f value;
          Ret (RRows rows)
      end
  end.

(** The body queued by [inner.then]: a plain insert. *)
Definition insert_plain (st : Store) (table : option Table)
    (values : Values) : Prog Returned :=
  t ← checkOnchainTable table MInsert;
  vs ← builder_values values;
  rows ← query (Insert t vs NoClause);
  Ret (RRows rows).

(** [promise.then(onFulfilled, onRejected)] *)
Fixpoint promise_then {A B} (p : Prog A) (onFulfilled : A → Error + B)
    (onRejected : Error → Error + B) : Prog B :=
  let settle (r : Error + B) :=
    match r with inl e => Throw e | inr b => Ret b end in
  match p with
  | Ret a => settle (onFulfilled a)
  | Throw e => settle (onRejected e)
  | Exec s k => Exec s (λ r, promise_then (k r) onFulfilled onRejected)
  | ExecRaw q k => ExecRaw q (λ r, promise_then (k r) onFulfilled onRejected)
  end.

(** [inner.then(onFulfilled, onRejected)] *)
Definition inner_then {B} (st : Store) (table : option Table)
    (values : Values) (onFulfilled : Returned → Error + B)
    (onRejected : Error → Error + B) : Prog B :=
  promise_then (insert_plain st table values) onFulfilled onRejected.

(** [await inner]: the value the thenable is fulfilled with, or the
    reason it is rejected with. *)
Definition inner_await (st : Store) (table : option Table) (values : Values)
    : Prog Returned :=
  inner_then st table values inr inl.

(** [inner.then(undefined, onRejected)] *)
Definition inner_catch (st : Store) (table : option Table) (values : Values)
    (onRejected : Error → Error + Returned) : Prog Returned :=
  inner_then st table values inr onRejected.

(** [onFinally] acts outside the store; the value or the reason passes
    through. *)
Definition inner_finally (st : Store) (table : option Table)
    (values : Values) : Prog Returned :=
  inner_then st table values (λ value, inr value) (λ reason, inl reason).

(** [indexingStore.update(table, key).set(values)].  The [meta] pushed
    onto the [RecordNotFoundError] is left out. *)
Definition store_update (st : Store) (table : option Table) (key : Obj)
    (values : SetArg) : Prog Returned :=
  t ← checkOnchainTable table MUpdate;
  match values with
  | SetFn f =>
      row ← find st t key;
      match row with
      | None =>
          Throw (RecordNotFoundError
                   ("No existing record found in table '"
                      +:+ default "undefined" (cache_get (tableNameCache st) t)
                      +:+ "'"))
      | Some row =>
          set ← builder_set (f row);
          w ← getWhereCondition st t key;
          rows ← query (Update t set w);
          Ret (RRows rows)
      end
  | SetObj o =>
      set ← builder_set o;
      w ← getWhereCondition st t key;
      rows ← query (Update t set w);
      Ret (RRows rows)
  end.

(** [indexingStore.delete]: [deleted.length > 0]. *)
Definition store_delete (st : Store) (table : option Table) (key : Obj)
    : Prog Returned :=
  t ← checkOnchainTable table MDelete;
  w ← getWhereCondition st t key;
  deleted ← query (Delete t w);
  Ret (RBool (bool_decide (0 < length deleted))).

(** [indexingStore.sql]: the raw query, then [Object.values(row)] for
    each row of the result. *)
Definition sql (q : RawQuery) : Prog Returned :=
  ExecRaw q (λ r,
    match r with
    | inl e => Throw (SqlError e)
    | inr rows => Ret (RRaw ((λ row, row.*2) <$> rows))
    end).

(** ** The methods of [indexingStore] *)

(** The conflict policy chosen on the object returned by
    [insert(table).values(values)]; [Plain] is the thenable itself. *)
Inductive Policy :=
| Plain
| PolicyDoNothing
| PolicyDoUpdate (valuesU : SetArg).

Inductive Call :=
| CFind (table : option Table) (key : Obj)
| CInsert (table : option Table) (values : Values) (policy : Policy)
| CUpdate (table : option Table) (key : Obj) (values : SetArg)
| CDelete (table : option Table) (key : Obj)
| CSql (q : RawQuery).

(** The function each method hands to [queue.add]. *)
Definition body (st : Store) (c : Call) : Prog Returned :=
  match c with
  | CFind table key => store_find st table key
  | CInsert table values Plain => insert_plain st table values
  | CInsert table values PolicyDoNothing =>
      insert_onConflictDoNothing st table values
  | CInsert table values (PolicyDoUpdate valuesU) =>
      insert_onConflictDoUpdate st table values valuesU
  | CUpdate table key values => store_update st table key values
  | CDelete table key => store_delete st table key
  | CSql q => sql q
  end.

Definition is_write (c : Call) : bool :=
  match c with
  | CInsert _ _ _ | CUpdate _ _ _ | CDelete _ _ => true
  | CFind _ _ | CSql _ => false
  end.

Definition call_table (c : Call) : option (option Table) :=
  match c with
  | CFind table _ | CInsert table _ _ | CUpdate table _ _ | CDelete table _ =>
      Some table
  | CSql _ => None
  end.

Definition call_method (c : Call) : option Method :=
  match c with
  | CFind _ _ => Some MFind
  | CInsert _ _ _ => Some MInsert
  | CUpdate _ _ _ => Some MUpdate
  | CDelete _ _ => Some MDelete
  | CSql _ => None
  end.

(** ** Vocabulary of the properties *)

(** The primary-key columns of [row] equal the corresponding fields of
    [key]. *)
Definition pk_equal (t : Table) (key row : Obj) : Prop :=
  ∀ c, c ∈ tbl_pk t → ∃ v, key !! c = Some v ∧ row !! c = Some v.

Definition has_key (t : Table) (key : Obj) : Prop :=
  ∀ c, c ∈ tbl_pk t → is_Some (key !! c).

(** What [find] resolves to. *)
Definition found (t : Table) (key : Obj) (db : Database) : option Obj :=
  head (filter (λ r, matches (key_conditions (tbl_pk t) key) r = true)
          (rows_of db t)).

(** No two rows of the table share a primary key. *)
Definition unique_keys (t : Table) (db : Database) : Prop :=
  ∀ r1 r2, r1 ∈ rows_of db t → r2 ∈ rows_of db t → pk_equal t r1 r2 → r1 = r2.

(** The statements of a batch handled one value at a time: for each
    value in order a [find] by primary key, then an insert when no row
    was found or an update of the row found; the batch stops at the
    first statement that fails or is refused. *)
Inductive PerRow (cp : Checkpoint) (t : Table) (valuesU : Obj → Obj)
    : list Obj → Database → list Event → Prop :=
| PerRow_done db :
    PerRow cp t valuesU [] db []
| PerRow_insert value rest db rows db' tr :
    (∀ row, row ∈ rows_of db t → ¬ pk_equal t value row) →
    exec cp (Insert t [value] NoClause) db = (inr rows, db') →
    PerRow cp t valuesU rest db' tr →
    PerRow cp t valuesU (value :: rest) db
      (Sent (Select t (key_conditions (tbl_pk t) value))
         :: Sent (Insert t [value] NoClause) :: tr)
| PerRow_insert_failed value rest db e db' :
    (∀ row, row ∈ rows_of db t → ¬ pk_equal t value row) →
    exec cp (Insert t [value] NoClause) db = (inl e, db') →
    PerRow cp t valuesU (value :: rest) db
      [Sent (Select t (key_conditions (tbl_pk t) value));
       Sent (Insert t [value] NoClause)]
| PerRow_update_refused value rest db row :
    row ∈ rows_of db t → pk_equal t value row →
    valuesU row = ∅ →
    PerRow cp t valuesU (value :: rest) db
      [Sent (Select t (key_conditions (tbl_pk t) value))]
| PerRow_update value rest db row rows db' tr :
    row ∈ rows_of db t → pk_equal t value row →
    exec cp (Update t (valuesU row) (key_conditions (tbl_pk t) value)) db
      = (inr rows, db') →
    PerRow cp t valuesU rest db' tr →
    PerRow cp t valuesU (value :: rest) db
      (Sent (Select t (key_conditions (tbl_pk t) value))
         :: Sent (Update t (valuesU row) (key_conditions (tbl_pk t) value))
         :: tr)
| PerRow_update_failed value rest db row e db' :
    row ∈ rows_of db t → pk_equal t value row →
    exec cp (Update t (valuesU row) (key_conditions (tbl_pk t) value)) db
      = (inl e, db') →
    PerRow cp t valuesU (value :: rest) db
      [Sent (Select t (key_conditions (tbl_pk t) value));
       Sent (Update t (valuesU row) (key_conditions (tbl_pk t) value))].

(** A single native upsert over the batch. *)
Definition native_upsert (t : Table) (values : list Obj) (tr : list Event)
    : Prop :=
  ∃ target set, tr = [Sent (Insert t values (DoUpdate target set))].

(** ** The operation queue *)

(** A function handed to [queue.add]. *)
Record Task := {
  task_id : nat;                 (* position in submission order *)
  task_body : Prog Returned;     (* what is left to run *)
}.

(** The queue of a store together with the database behind it. *)
Record System := {
  concurrency : nat;
  added : nat;                                 (* number of [queue.add] calls *)
  pending : list Task;                         (* added, not started *)
  running : list Task;                         (* in flight *)
  settled : list (nat * (Error + Returned));   (* in order of completion *)
  database : Database;
}.

(** Modelled from the spec: [createQueue] (packages/common/src/queue)
    is not part of the store.  The store builds its queue with
    [concurrency: 1], [initialStart: true] and the worker [fn => fn()];
    the queue starts empty. *)
Definition createQueue (concurrency : nat) (db : Database) : System :=
  {| concurrency := concurrency; added := 0; pending := []; running := [];
     settled := []; database := db |}.

Inductive Label :=
| LAdd (c : Call)       (* the handler calls a store method *)
| LStart                (* the queue starts its oldest pending function *)
| LAdvance (i : nat)    (* the [i]-th operation in flight gets a statement through *)
| LSettle (i : nat).    (* the [i]-th operation in flight settles *)

(** Modelled from the spec: how the queue of [createQueue] proceeds
    ("all store operations execute strictly serialized in submission
    order", "concurrency = 1 per handler invocation").  The queue keeps
    the added functions in order and starts the oldest one when fewer
    than [concurrency] are in flight; an operation in flight advances by
    one database round-trip at a time and leaves the queue when it
    settles. *)
Definition queue_step (cp : Checkpoint) (st : Store) (l : Label)
    (σ : System) : option System :=
  match l with
  | LAdd c =>
      Some {| concurrency := concurrency σ; added := S (added σ);
              pending := pending σ ++ [{| task_id := added σ; task_body := body st c |}];
              running := running σ; settled := settled σ;
              database := database σ |}
  | LStart =>
      match pending σ with
      | task :: rest =>
          if decide (length (running σ) < concurrency σ) then
            Some {| concurrency := concurrency σ; added := added σ;
                    pending := rest; running := running σ ++ [task];
                    settled := settled σ; database := database σ |}
          else None
      | [] => None
      end
  | LAdvance i =>
      match running σ !! i with
      | Some {| task_id := id; task_body := Exec s k |} =>
          let '(r, db') := exec cp s (database σ) in
          Some {| concurrency := concurrency σ; added := added σ;
                  pending := pending σ;
                  running := <[i := {| task_id := id; task_body := k r |}]> (running σ);
                  settled := settled σ; database := db' |}
      | Some {| task_id := id; task_body := ExecRaw q k |} =>
          let '(r, db') := q (database σ) in
          Some {| concurrency := concurrency σ; added := added σ;
                  pending := pending σ;
                  running := <[i := {| task_id := id; task_body := k r |}]> (running σ);
                  settled := settled σ; database := db' |}
      | _ => None
      end
  | LSettle i =>
      match running σ !! i with
      | Some {| task_id := id; task_body := Ret a |} =>
          Some {| concurrency := concurrency σ; added := added σ;
                  pending := pending σ; running := delete i (running σ);
                  settled := settled σ ++ [(id, inr a)];
                  database := database σ |}
      | Some {| task_id := id; task_body := Throw e |} =>
          Some {| concurrency := concurrency σ; added := added σ;
                  pending := pending σ; running := delete i (running σ);
                  settled := settled σ ++ [(id, inl e)];
                  database := database σ |}
      | _ => None
      end
  end.

(** A schedule: the steps taken, oldest first. *)
Fixpoint queue_run (cp : Checkpoint) (st : Store) (ls : list Label)
    (σ : System) : option System :=
  match ls with
  | [] => Some σ
  | l :: ls' =>
      match queue_step cp st l σ with
      | Some σ' => queue_run cp st ls' σ'
      | None => None
      end
  end.

(** The calls a schedule submits, in submission order. *)
Definition submitted (ls : list Label) : list Call :=
  omap (λ l, match l with LAdd c => Some c | _ => None end) ls.

(** Running bodies one after the other, each to completion. *)
Fixpoint run_all (cp : Checkpoint) (ps : list (Prog Returned)) (db : Database)
    : list (Error + Returned) * Database :=
  match ps with
  | [] => ([], db)
  | p :: ps' =>
      let r := run cp p db in
      let '(rs, db') := run_all cp ps' (final r) in
      (result r :: rs, db')
  end.

Definition idle (σ : System) : Prop := pending σ = [] ∧ running σ = [].

(** ** Sample data *)

(** Sample data: an onchain table [accounts] keyed by [id], an offchain
    table, and a database holding account 1. *)
Definition accounts : Table :=
  {| tbl_name := "accounts"; tbl_user := "accounts"; tbl_onchain := true;
     tbl_pk := ["id"%string] |}.

Definition metadata : Table :=
  {| tbl_name := "metadata"; tbl_user := "metadata"; tbl_onchain := false;
     tbl_pk := ["id"%string] |}.

Definition sample_store : Store := {| schema := [accounts] |}.

Definition sample_checkpoint : Checkpoint :=
  {| blockTimestamp := 1000; chainId := 1; blockNumber := 100;
     transactionIndex := 0; eventIndex := 0 |}.

Definition account (id balance : Z) : Obj :=
  {[ "id"%string := VNum id; "balance"%string := VNum balance ]}.

Definition account_key (id : Z) : Obj := {[ "id"%string := VNum id ]}.

Definition set_balance (balance : Z) : Obj :=
  {[ "balance"%string := VNum balance ]}.

Definition sample_db : Database :=
  {[ "accounts"%string := {| td_rows := [account 1 10]; td_reorg := [] |} ]}.

(** The set expression of an upsert as a function of the existing row. *)
Definition set_of (valuesU : SetArg) : Obj → Obj :=
  match valuesU with
  | SetObj o => λ _, o
  | SetFn f => f
  end.

(** The rows of a table under the primary key of [key]. *)
Definition keyed (t : Table) (key : Obj) (rows : list Obj) : list Obj :=
  filter (λ r, matches (key_conditions (tbl_pk t) key) r = true) rows.

(** A table after one row-level change: a row inserted is added, a row
    overwritten is replaced where it stood, a row deleted is gone. *)
Definition apply_change (rows : list Obj) (ch : Change) : list Obj :=
  match ch with
  | Inserted new => rows ++ [new]
  | Updated old new => (λ r, if decide (r = old) then new else r) <$> rows
  | Deleted old => filter (λ r, r ≠ old) rows
  end.

Definition apply_changes (chs : list Change) (rows : list Obj) : list Obj :=
  foldl apply_change rows chs.

(** The rows under the primary key of [key] overwritten with the fields
    of [set], a function of the first of them. *)
Definition overwrite (t : Table) (set : Obj → Obj) (key : Obj)
    (rows : list Obj) : list Change :=
  match keyed t key rows with
  | [] => []
  | row :: _ => (λ r, Updated r (set row ∪ r)) <$> keyed t key rows
  end.

(** One value of an insert with a conflict policy: the value is inserted
    when its primary key is free, and [taken] says what is written
    otherwise. *)
Definition insert_unless_taken (t : Table)
    (taken : Obj → list Obj → list Change) (value : Obj) (rows : list Obj)
    : list Change :=
  match keyed t value rows with
  | [] => [Inserted value]
  | _ => taken value rows
  end.

(** The values of a batch in order, each seeing the rows the values
    before it left. *)
Fixpoint each_value (one : Obj → list Obj → list Change)
    (values rows : list Obj) : list Change :=
  match values with
  | [] => []
  | value :: rest =>
      let chs := one value rows in
      chs ++ each_value one rest (apply_changes chs rows)
  end.

(** The rows a write asks to insert, overwrite or remove in a table
    that holds [rows]: [insert] adds its values, [onConflictDoNothing]
    the values whose key is free, [onConflictDoUpdate] adds the values
    whose key is free and overwrites the rows in the place of the
    others, [update] overwrites the row under the key and [delete]
    removes it. *)
Definition write_changes (t : Table) (c : Call) (rows : list Obj)
    : list Change :=
  match c with
  | CInsert _ values Plain => Inserted <$> values_list values
  | CInsert _ values PolicyDoNothing =>
      each_value (insert_unless_taken t (λ _ _, [])) (values_list values) rows
  | CInsert _ values (PolicyDoUpdate valuesU) =>
      each_value (insert_unless_taken t (overwrite t (set_of valuesU)))
        (values_list values) rows
  | CUpdate _ key values => overwrite t (set_of values) key rows
  | CDelete _ key => Deleted <$> keyed t key rows
  | CFind _ _ | CSql _ => []
  end.

(** The database [db'] is [db] after the changes [chs] to the table [t]
    were written under the event checkpoint [cp]: the user rows are
    changed, and the journal has grown by exactly one row per change,
    in the order of the changes: the row [journal_row] gives for it,
    with the checkpoint, the operation, the primary key and, for an
    update or a delete, the row as it was. *)
Definition journalled (cp : Checkpoint) (t : Table) (chs : list Change)
    (db db' : Database) : Prop :=
  rows_of db' t = apply_changes chs (rows_of db t)
  ∧ journal_of db' t
    = journal_of db t ++ (journal_row cp (tbl_pk t) <$> chs).

(** A body whose statements all address the table [t]. *)
Inductive OnlyOn {A} (t : Table) : Prog A → Prop :=
| OnlyOn_ret a : OnlyOn t (Ret a)
| OnlyOn_throw e : OnlyOn t (Throw e)
| OnlyOn_exec s k :
    stmt_table s = t → (∀ r, OnlyOn t (k r)) → OnlyOn t (Exec s k).

(** The operations not yet settled, oldest first. *)
Definition waiting (σ : System) : list Task := running σ ++ pending σ.

(** Operations settle in the order they were submitted, and the ones
    still waiting are the later submissions, in order. *)
Definition in_submission_order (σ : System) : Prop :=
  (settled σ).*1 = seq 0 (length (settled σ))
  ∧ task_id <$> waiting σ = seq (length (settled σ)) (length (waiting σ))
  ∧ added σ = length (settled σ) + length (waiting σ).

(** Running the submitted calls one after the other from the initial
    database gives the results settled so far, followed by what the
    waiting operations give from the current database. *)
Definition serial (cp : Checkpoint) (st : Store) (calls : list Call)
    (db0 : Database) (σ : System) : Prop :=
  run_all cp (body st <$> calls) db0 =
  let rest := run_all cp (task_body <$> waiting σ) (database σ) in
  ((settled σ).*2 ++ rest.1, rest.2).

Definition queue_inv (cp : Checkpoint) (st : Store) (calls : list Call)
    (db0 : Database) (σ : System) : Prop :=
  concurrency σ = 1
  ∧ length (running σ) ≤ 1
  ∧ in_submission_order σ
  ∧ serial cp st calls db0 σ.

(** An update that adds one to the balance of the row it is given. *)
Definition add_one (row : Obj) : Obj :=
  match row !! "balance"%string with
  | Some (VNum balance) => set_balance (balance + 1)
  | _ => ∅
  end.

(** ** Vocabulary of the further properties *)

(** Two runs settle alike and leave the same database; the statements
    sent may differ. *)
Definition same_outcome {A} (r1 r2 : Run A) : Prop :=
  result r1 = result r2 ∧ final r1 = final r2.

(** The call gets as far as asking for the primary-key columns of its
    table: it is a [find], a [delete], an [update] or an
    [onConflictDoUpdate], and drizzle has not refused its [set] or
    [values] before.  [onConflictDoUpdate] with a function over an empty
    array has nothing to look up. *)
Definition asks_key_columns (c : Call) : bool :=
  match c with
  | CFind _ _ | CDelete _ _ => true
  | CUpdate _ _ (SetFn _) => true
  | CUpdate _ _ (SetObj o) => bool_decide (o ≠ ∅)
  | CInsert _ values (PolicyDoUpdate _) => bool_decide (values_list values ≠ [])
  | CInsert _ _ _ | CSql _ => false
  end.

(** The call with another key. *)
Definition with_key (c : Call) (key : Obj) : Call :=
  match c with
  | CFind table _ => CFind table key
  | CUpdate table _ values => CUpdate table key values
  | CDelete table _ => CDelete table key
  | CInsert _ _ _ | CSql _ => c
  end.

Definition call_key (c : Call) : option Obj :=
  match c with
  | CFind _ key | CUpdate _ key _ | CDelete _ key => Some key
  | CInsert _ _ _ | CSql _ => None
  end.

(** The object sets no primary-key column. *)
Definition keeps_key (t : Table) (o : Obj) : Prop :=
  ∀ c, c ∈ tbl_pk t → o !! c = None.

(** Every row of the table has its primary key, and no two rows have
    the same one. *)
Definition well_keyed (t : Table) (rows : list Obj) : Prop :=
  Forall (has_key t) rows ∧ NoDup (key_of (tbl_pk t) <$> rows).

(** * Properties *)

(** ** Running programs *)

Lemma run_bind {A B} cp (p : Prog A) (f : A → Prog B) db :
  run cp (p ≫= f) db =
  match result (run cp p db) with
  | inl e =>
      {| result := inl e; final := final (run cp p db);
         trace := trace (run cp p db) |}
  | inr a =>
      let rest := run cp (f a) (final (run cp p db)) in
      {| result := result rest; final := final rest;
         trace := trace (run cp p db) ++ trace rest |}
  end.
Proof.
  revert db. unfold mbind, Prog_bind.
  induction p as [a|e|s k IH|q k IH]; intros db; simpl.
  - by destruct (run cp (f a) db).
  - done.
  - destruct (exec cp s db) as [r db1]. simpl. rewrite IH.
    by destruct (result (run cp (k r) db1)).
  - destruct (q db) as [r db1]. simpl. rewrite IH.
    by destruct (result (run cp (k r) db1)).
Qed.

Lemma run_query cp s db :
  run cp (query s) db =
  {| result := match (exec cp s db).1 with
               | inl e => inl (SqlError e)
               | inr rows => inr rows
               end;
     final := (exec cp s db).2;
     trace := [Sent s] |}.
Proof.
  unfold query. simpl. destruct (exec cp s db) as [[e|rows] db1]; done.
Qed.

(** ** The caches *)

Lemma cache_get_fmap {V} (f : Table → V) (l : list Table) t :
  t ∈ l → cache_get ((λ t, (t, f t)) <$> l) t = Some (f t).
Proof.
  unfold cache_get. induction l as [|x l IH]; intros Hin.
  - by apply elem_of_nil in Hin.
  - simpl. case_decide as Hx; simpl in *.
    + by subst.
    + apply elem_of_cons in Hin as [->|Hin]; [done|].
      specialize (IH Hin).
      destruct (list_find _ _) as [[i y]|]; simpl in *; done.
Qed.

Lemma primaryKeysCache_get st t :
  t ∈ schema st → cache_get (primaryKeysCache st) t = Some (tbl_pk t).
Proof. apply cache_get_fmap. Qed.

Lemma tableNameCache_get st t :
  t ∈ schema st → cache_get (tableNameCache st) t = Some (tbl_user t).
Proof. apply cache_get_fmap. Qed.

(** ** Where conditions *)

Lemma matches_key_conditions cols key r :
  matches (key_conditions cols key) r = true ↔
  ∀ c, c ∈ cols → ∃ v, key !! c = Some v ∧ r !! c = Some v.
Proof.
  unfold matches, key_conditions. rewrite forallb_forall. split.
  - intros H c Hc.
    assert (Hin : In (c, key !! c) ((λ js, (js, key !! js)) <$> cols)).
    { apply list_elem_of_In, list_elem_of_fmap. by exists c. }
    apply H in Hin. unfold cond_holds in Hin. simpl in Hin.
    destruct (key !! c) as [v|]; [|done].
    destruct (r !! c) as [x|]; [|done].
    apply bool_decide_eq_true_1 in Hin. subst. by exists v.
  - intros H [c o] [c' [[= -> ->] Hc]]%list_elem_of_In%list_elem_of_fmap.
    destruct (H c' Hc) as (v & Ek & Er).
    unfold cond_holds. simpl. rewrite Ek, Er. by apply bool_decide_eq_true_2.
Qed.

Lemma matches_pk_equal t key r :
  matches (key_conditions (tbl_pk t) key) r = true ↔ pk_equal t key r.
Proof. apply matches_key_conditions. Qed.

Lemma conflicts_pk_equal t v r :
  conflicts (tbl_pk t) v r = true ↔ pk_equal t v r.
Proof. apply matches_key_conditions. Qed.

Lemma row_ok_has_key t r : row_ok t r = true ↔ has_key t r.
Proof.
  unfold row_ok, has_key. rewrite forallb_forall. split.
  - intros H c Hc%list_elem_of_In. apply H in Hc.
    by apply bool_decide_eq_true_1 in Hc.
  - intros H c Hc%list_elem_of_In. by apply bool_decide_eq_true_2, H.
Qed.

(** ** Reading *)

Lemma exec_select cp t w db :
  exec cp (Select t w) db =
  (inr (filter (λ r, matches w r = true) (rows_of db t)), db).
Proof. reflexivity. Qed.

Lemma head_filter_None {A} (P : A → Prop) `{∀ x, Decision (P x)} (l : list A) :
  head (filter P l) = None ↔ ∀ x, x ∈ l → ¬ P x.
Proof.
  rewrite head_None. split.
  - intros E x Hx HP.
    assert (x ∈ filter P l) as Hf by (by apply list_elem_of_filter).
    rewrite E in Hf. by apply elem_of_nil in Hf.
  - intros Hno. destruct (filter P l) as [|y l'] eqn:E; [done|].
    assert (y ∈ filter P l) as [HP Hy]%list_elem_of_filter by (rewrite E; left).
    by destruct (Hno y).
Qed.

Lemma head_filter_Some {A} (P : A → Prop) `{∀ x, Decision (P x)} (l : list A) x :
  head (filter P l) = Some x → x ∈ l ∧ P x.
Proof.
  intros E. destruct (filter P l) as [|y l'] eqn:Ef; simplify_eq/=.
  assert (x ∈ filter P l) as [HP Hx]%list_elem_of_filter by (rewrite Ef; left).
  done.
Qed.

Lemma run_find st cp t key db :
  t ∈ schema st →
  run cp (find st t key) db =
  {| result := inr (found t key db); final := db;
     trace := [Sent (Select t (key_conditions (tbl_pk t) key))] |}.
Proof.
  intros Hin. unfold find, getWhereCondition.
  rewrite (primaryKeysCache_get _ _ Hin). reflexivity.
Qed.

Lemma found_None t key db :
  found t key db = None ↔ ∀ row, row ∈ rows_of db t → ¬ pk_equal t key row.
Proof.
  unfold found. rewrite head_filter_None.
  split; intros H row Hrow; specialize (H row Hrow);
    by rewrite matches_pk_equal in *.
Qed.

Lemma found_Some t key db row :
  found t key db = Some row → row ∈ rows_of db t ∧ pk_equal t key row.
Proof.
  intros [Hin Hm]%head_filter_Some. by rewrite matches_pk_equal in Hm.
Qed.

(** ** The table check *)

Lemma run_checked {A} cp t m (f : Table → Prog A) db :
  tbl_onchain t = true →
  run cp (checkOnchainTable (Some t) m ≫= f) db = run cp (f t) db.
Proof. intros Hon. unfold checkOnchainTable. by rewrite Hon. Qed.

Lemma run_check_undefined {A} cp m (f : Table → Prog A) db :
  run cp (checkOnchainTable None m ≫= f) db =
  {| result :=
       inl (UndefinedTableError
              ("Table object passed to db." +:+ method_name m
                 +:+ "() is undefined"));
     final := db; trace := [] |}.
Proof. reflexivity. Qed.

Lemma run_check_offchain {A} cp t m (f : Table → Prog A) db :
  tbl_onchain t = false →
  run cp (checkOnchainTable (Some t) m ≫= f) db =
  {| result :=
       inl (InvalidStoreMethodError
              (match m with
               | MFind =>
                   "db.find() can only be used with onchain tables, and '"
                     +:+ tbl_name t +:+ "' is an offchain table."
               | _ =>
                   "Indexing functions can only write to onchain tables, and '"
                     +:+ tbl_name t +:+ "' is an offchain table."
               end));
     final := db; trace := [] |}.
Proof. intros Hoff. unfold checkOnchainTable. by rewrite Hoff. Qed.

(** Every method of the store that takes a table starts with the table
    check. *)
Lemma body_checks st c table m :
  call_table c = Some table → call_method c = Some m →
  ∃ f, body st c = checkOnchainTable table m ≫= f.
Proof.
  destruct c as [tb key|tb values [| |valuesU]|tb key values|tb key|q];
    intros [= <-] [= <-]; simpl; eauto.
Qed.

(** C3.  A write ([insert] under any conflict policy, [update],
    [delete]) on an [undefined] table is rejected with
    [UndefinedTableError], and on a table that is not onchain with
    [InvalidStoreMethodError]; in both cases no statement reaches the
    database and the database is unchanged. *)
Theorem write_table_check st cp db c table m :
  is_write c = true → call_table c = Some table → call_method c = Some m →
  let r := run cp (body st c) db in
  match table with
  | None =>
      result r = inl (UndefinedTableError
                        ("Table object passed to db." +:+ method_name m
                           +:+ "() is undefined"))
      ∧ trace r = [] ∧ final r = db
  | Some t =>
      tbl_onchain t = false →
      result r = inl (InvalidStoreMethodError
                        ("Indexing functions can only write to onchain tables, and '"
                           +:+ tbl_name t +:+ "' is an offchain table."))
      ∧ trace r = [] ∧ final r = db
  end.
Proof.
  intros Hw Ht Hm r. subst r.
  destruct (body_checks st c table m Ht Hm) as [f ->].
  destruct table as [t|].
  - intros Hoff. rewrite run_check_offchain by done.
    destruct c; simplify_eq/=; done.
  - by rewrite run_check_undefined.
Qed.

Lemma write_table_check_witness :
  (let r := run sample_checkpoint
              (body sample_store (CDelete None (account_key 1))) sample_db in
   result r = inl (UndefinedTableError
                     "Table object passed to db.delete() is undefined")
   ∧ trace r = [] ∧ final r = sample_db)
  ∧ (let r := run sample_checkpoint
                (body sample_store
                   (CUpdate (Some metadata) (account_key 1) (SetObj (set_balance 5))))
                sample_db in
     result r = inl (InvalidStoreMethodError
                       "Indexing functions can only write to onchain tables, and 'metadata' is an offchain table.")
     ∧ trace r = [] ∧ final r = sample_db).
Proof.
  split.
  - apply (write_table_check sample_store sample_checkpoint sample_db
             (CDelete None (account_key 1)) None MDelete); reflexivity.
  - apply (write_table_check sample_store sample_checkpoint sample_db
             (CUpdate (Some metadata) (account_key 1) (SetObj (set_balance 5)))
             (Some metadata) MUpdate); reflexivity.
Defined.

(** C9.  The table check applies to reads: [find] on a table that is
    not onchain is rejected with [InvalidStoreMethodError], carrying the
    message specific to [find], before any query is issued. *)
Theorem find_offchain st cp db t key :
  tbl_onchain t = false →
  let r := run cp (body st (CFind (Some t) key)) db in
  result r = inl (InvalidStoreMethodError
                    ("db.find() can only be used with onchain tables, and '"
                       +:+ tbl_name t +:+ "' is an offchain table."))
  ∧ trace r = [] ∧ final r = db.
Proof.
  intros Hoff r. subst r. simpl. unfold store_find.
  by rewrite run_check_offchain.
Qed.

Lemma find_offchain_witness :
  let r := run sample_checkpoint
             (body sample_store (CFind (Some metadata) (account_key 1)))
             sample_db in
  result r = inl (InvalidStoreMethodError
                    "db.find() can only be used with onchain tables, and 'metadata' is an offchain table.")
  ∧ trace r = [] ∧ final r = sample_db.
Proof.
  apply (find_offchain sample_store sample_checkpoint sample_db metadata
           (account_key 1)).
  reflexivity.
Defined.

Lemma run_store_find st cp t key db :
  t ∈ schema st → tbl_onchain t = true →
  run cp (store_find st (Some t) key) db =
  {| result := inr (RRow (found t key db)); final := db;
     trace := [Sent (Select t (key_conditions (tbl_pk t) key))] |}.
Proof.
  intros Hin Hon. unfold store_find.
  rewrite run_checked, run_bind, run_find by done. reflexivity.
Qed.

Lemma pk_equal_same_key t key r1 r2 :
  pk_equal t key r1 → pk_equal t key r2 → pk_equal t r1 r2.
Proof.
  intros H1 H2 c Hc.
  destruct (H1 c Hc) as (v & Hk & Hr1), (H2 c Hc) as (v' & Hk' & Hr2).
  exists v. split; [done|]. congruence.
Qed.

(** C7.  [find(table, key)] resolves to a row of the table whose
    primary-key columns equal the corresponding fields of [key] when
    there is one (the one, when keys are unique in the table), and to
    [null] when no row matches; it leaves the database as it is. *)
Theorem find_spec st cp db t key :
  t ∈ schema st → tbl_onchain t = true →
  let r := run cp (body st (CFind (Some t) key)) db in
  final r = db
  ∧ ((∃ row, row ∈ rows_of db t ∧ pk_equal t key row) →
     ∃ row, result r = inr (RRow (Some row))
            ∧ row ∈ rows_of db t ∧ pk_equal t key row)
  ∧ (∀ row, unique_keys t db → row ∈ rows_of db t → pk_equal t key row →
     result r = inr (RRow (Some row)))
  ∧ ((∀ row, row ∈ rows_of db t → ¬ pk_equal t key row) →
     result r = inr (RRow None)).
Proof.
  intros Hin Hon r. subst r. simpl. rewrite run_store_find by done. simpl.
  split; [done|]. split; [|split].
  - intros (row & Hrow & Heq).
    destruct (found t key db) as [row'|] eqn:E.
    + exists row'. by apply found_Some in E as [? ?].
    + rewrite found_None in E. by destruct (E row Hrow).
  - intros row Huniq Hrow Heq.
    destruct (found t key db) as [row'|] eqn:E.
    + apply found_Some in E as [Hrow' Heq']. do 3 f_equal.
      apply Huniq; [done..|]. by eapply pk_equal_same_key.
    + rewrite found_None in E. by destruct (E row Hrow).
  - intros Hno. apply found_None in Hno. by rewrite Hno.
Qed.

(** Account 1 is found, account 2 is not. *)
Example find_account :
  result (run sample_checkpoint
            (body sample_store (CFind (Some accounts) (account_key 1))) sample_db)
  = inr (RRow (Some (account 1 10)))
  ∧ result (run sample_checkpoint
              (body sample_store (CFind (Some accounts) (account_key 2))) sample_db)
    = inr (RRow None).
Proof. split; vm_compute; reflexivity. Qed.

Lemma find_spec_witness :
  let r := run sample_checkpoint
             (body sample_store (CFind (Some accounts) (account_key 1)))
             sample_db in
  final r = sample_db
  ∧ ((∃ row, row ∈ rows_of sample_db accounts
             ∧ pk_equal accounts (account_key 1) row) →
     ∃ row, result r = inr (RRow (Some row))
            ∧ row ∈ rows_of sample_db accounts
            ∧ pk_equal accounts (account_key 1) row)
  ∧ (∀ row, unique_keys accounts sample_db →
            row ∈ rows_of sample_db accounts →
            pk_equal accounts (account_key 1) row →
     result r = inr (RRow (Some row)))
  ∧ ((∀ row, row ∈ rows_of sample_db accounts
             → ¬ pk_equal accounts (account_key 1) row) →
     result r = inr (RRow None)).
Proof.
  apply (find_spec sample_store sample_checkpoint sample_db accounts
           (account_key 1)).
  - apply list_elem_of_here.
  - reflexivity.
Defined.

(** ** The reference semantics of statements *)

Lemma existsb_false {A} (f : A → bool) (l : list A) :
  existsb f l = false ↔ ∀ x, x ∈ l → f x = false.
Proof.
  induction l as [|y l IH]; simpl.
  - split; [|done]. intros _ x Hx. by apply elem_of_nil in Hx.
  - rewrite orb_false_iff, IH. split.
    + intros [Hy Hl] x [->|Hx]%elem_of_cons; auto.
    + intros H. split; [apply H; left|intros x Hx; apply H; by right].
Qed.

Lemma existsb_true {A} (f : A → bool) (l : list A) :
  existsb f l = true ↔ ∃ x, x ∈ l ∧ f x = true.
Proof.
  rewrite existsb_exists. by setoid_rewrite list_elem_of_In.
Qed.

Lemma update_rows_ok t set w seen cur ret new chs :
  update_rows t set w seen cur = inr (ret, new, chs) →
  ret = (λ r, set ∪ r) <$> filter (λ r, matches w r = true) cur
  ∧ new = seen ++ ((λ r, if matches w r then set ∪ r else r) <$> cur)
  ∧ chs = (λ r, Updated r (set ∪ r)) <$> filter (λ r, matches w r = true) cur.
Proof.
  revert seen ret new chs.
  induction cur as [|r cur IH]; intros seen ret new chs; simpl.
  - intros [= <- <- <-]. by rewrite app_nil_r.
  - rewrite filter_cons. destruct (matches w r) eqn:Em.
    + rewrite decide_True by done.
      destruct (key_free t (set ∪ r) (seen ++ cur)); [|done].
      destruct (update_rows t set w (seen ++ [set ∪ r]) cur)
        as [e|[[ret' new'] chs']] eqn:E; [done|].
      intros [= <- <- <-]. apply IH in E as (-> & -> & ->).
      by rewrite <- app_assoc.
    + rewrite decide_False by done.
      intros E. apply IH in E as (-> & -> & ->).
      by rewrite <- app_assoc.
Qed.

Lemma filter_none {A} (P : A → Prop) `{∀ x, Decision (P x)} (l : list A) :
  (∀ x, x ∈ l → ¬ P x) → filter P l = [].
Proof.
  intros Hno. induction l as [|x l IH]; [done|].
  rewrite filter_cons, decide_False by (apply Hno; left).
  apply IH. intros y Hy. apply Hno. by right.
Qed.

Lemma filter_all {A} (P : A → Prop) `{∀ x, Decision (P x)} (l : list A) :
  (∀ x, x ∈ l → P x) → filter P l = l.
Proof.
  intros Hall. induction l as [|x l IH]; [done|].
  rewrite filter_cons, decide_True by (apply Hall; left).
  f_equal. apply IH. intros y Hy. apply Hall. by right.
Qed.

Lemma filter_nil_none {A} (P : A → Prop) `{∀ x, Decision (P x)} (l : list A) :
  filter P l = [] → ∀ x, x ∈ l → ¬ P x.
Proof.
  intros E x Hx HP.
  assert (x ∈ filter P l) as Hf by (by apply list_elem_of_filter).
  rewrite E in Hf. by apply elem_of_nil in Hf.
Qed.

Lemma update_rows_none t set w seen cur :
  (∀ r, r ∈ cur → matches w r = false) →
  update_rows t set w seen cur = inr ([], seen ++ cur, []).
Proof.
  revert seen. induction cur as [|r cur IH]; intros seen Hno; simpl.
  - by rewrite app_nil_r.
  - rewrite (Hno r) by left. rewrite IH by (intros; apply Hno; by right).
    by rewrite <- app_assoc.
Qed.

Lemma rewrite_none (set : Obj) w (cur : list Obj) :
  (∀ r, r ∈ cur → matches w r ≠ true) →
  (λ r, if matches w r then set ∪ r else r) <$> cur = cur.
Proof.
  intros Hno. induction cur as [|r cur IH]; [done|]. simpl.
  destruct (matches w r) eqn:E.
  - destruct (Hno r); [left|done].
  - f_equal. apply IH. intros x Hx. apply Hno. by right.
Qed.

Lemma insert_row_fresh t oc v cur :
  row_ok t v = true →
  (∀ r, r ∈ cur → conflicts (tbl_pk t) v r = false) →
  match oc with DoUpdate target _ => target = tbl_pk t | _ => True end →
  insert_row t oc v cur = inr ([v], cur ++ [v], [Inserted v]).
Proof.
  intros Hok Hfree%existsb_false Hoc. unfold insert_row. rewrite Hok. simpl.
  destruct oc as [| |target set]; subst; by rewrite ?Hfree.
Qed.

Lemma insert_row_taken t v cur r :
  row_ok t v = true → r ∈ cur → conflicts (tbl_pk t) v r = true →
  insert_row t NoClause v cur = inl UniqueViolation.
Proof.
  intros Hok Hr Hc. unfold insert_row. rewrite Hok. simpl.
  replace (existsb (conflicts (tbl_pk t) v) cur) with true; [done|].
  symmetry. apply existsb_true. eauto.
Qed.

Lemma conflicts_has_key t v r : conflicts (tbl_pk t) v r = true → row_ok t v = true.
Proof.
  rewrite conflicts_pk_equal, row_ok_has_key. intros H c Hc.
  destruct (H c Hc) as (x & Hv & _). eauto.
Qed.

(** A statement that reports no change leaves the rows as they were. *)
Lemma insert_rows_quiet t oc vs cur ret new :
  insert_rows t oc vs cur = inr (ret, new, []) → new = cur.
Proof.
  revert cur ret new. induction vs as [|v vs IH]; intros cur ret new; simpl.
  - by intros [= <- <-].
  - destruct (insert_row t oc v cur) as [e|[[ret1 cur1] chs1]] eqn:E1; [done|].
    destruct (insert_rows t oc vs cur1) as [e|[[ret2 cur2] chs2]] eqn:E2; [done|].
    intros [= <- <- [-> ->]%app_eq_nil].
    apply IH in E2 as ->.
    unfold insert_row in E1. destruct (negb (row_ok t v)); [done|].
    destruct oc as [| |target set].
    + destruct (existsb _ cur); simplify_eq.
    + destruct (existsb _ cur); by simplify_eq.
    + destruct (existsb (conflicts target v) cur).
      * apply update_rows_ok in E1 as (_ & -> & Hchs). simpl.
        symmetry in Hchs. apply fmap_nil_inv in Hchs.
        apply rewrite_none. intros r Hr.
        by apply (filter_nil_none _ _ Hchs).
      * destruct (existsb _ cur); simplify_eq.
Qed.

Lemma run_stmt_quiet s cur ret new :
  run_stmt s cur = inr (ret, new, []) → new = cur.
Proof.
  destruct s as [t w|t vs oc|t set w|t w]; simpl.
  - by intros [= <- <-].
  - destruct oc as [| |target set]; try apply insert_rows_quiet.
    destruct (distinct_keys target vs); [apply insert_rows_quiet|done].
  - intros (_ & -> & Hchs)%update_rows_ok. simpl.
    symmetry in Hchs. apply fmap_nil_inv in Hchs.
    apply rewrite_none. intros r Hr. by apply (filter_nil_none _ _ Hchs).
  - unfold delete_rows. intros [= <- <- Hchs]. apply fmap_nil_inv in Hchs.
    apply filter_all. intros r Hr.
    apply not_true_is_false. by apply (filter_nil_none _ _ Hchs).
Qed.

(** What a successful statement leaves behind in its table. *)
Lemma exec_ok cp s db ret new chs :
  run_stmt s (rows_of db (stmt_table s)) = inr (ret, new, chs) →
  (exec cp s db).1 = inr ret
  ∧ rows_of (exec cp s db).2 (stmt_table s) = new
  ∧ journal_of (exec cp s db).2 (stmt_table s) =
      journal_of db (stmt_table s)
        ++ (journal_row cp (tbl_pk (stmt_table s)) <$> chs)
  ∧ (chs = [] → (exec cp s db).2 = db).
Proof.
  intros E. unfold exec. rewrite E. destruct chs as [|ch chs]; simpl.
  - apply run_stmt_quiet in E as ->. by rewrite app_nil_r.
  - unfold commit, rows_of, journal_of. rewrite lookup_total_insert_eq. done.
Qed.

Lemma exec_failed cp s db e :
  run_stmt s (rows_of db (stmt_table s)) = inl e →
  exec cp s db = (inl e, db).
Proof. intros E. unfold exec. by rewrite E. Qed.

(** A failed statement leaves the database as it was. *)
Lemma exec_atomic cp s db e db' :
  exec cp s db = (inl e, db') → db' = db.
Proof.
  unfold exec.
  destruct (run_stmt s (rows_of db (stmt_table s))) as [e'|[[ret new] [|ch chs]]];
    by intros [= <-].
Qed.

(** ** Running the methods *)

Lemma getWhereCondition_in st t key :
  t ∈ schema st →
  getWhereCondition st t key = Ret (key_conditions (tbl_pk t) key).
Proof. intros Hin. unfold getWhereCondition. by rewrite primaryKeysCache_get. Qed.

Lemma ret_bind {A B} (a : A) (f : A → Prog B) : (Ret a ≫= f) = f a.
Proof. reflexivity. Qed.

Lemma run_find_then {A} st cp t key (f : option Obj → Prog A) db :
  t ∈ schema st →
  run cp (find st t key ≫= f) db =
  let rest := run cp (f (found t key db)) db in
  {| result := result rest; final := final rest;
     trace := Sent (Select t (key_conditions (tbl_pk t) key)) :: trace rest |}.
Proof. intros Hin. rewrite run_bind, run_find by done. reflexivity. Qed.

Lemma run_query_then {A} cp s (f : list Obj → A) db :
  run cp (rows ← query s; Ret (f rows)) db =
  {| result := match (exec cp s db).1 with
               | inl e => inl (SqlError e)
               | inr rows => inr (f rows)
               end;
     final := (exec cp s db).2;
     trace := [Sent s] |}.
Proof.
  rewrite run_bind, run_query. simpl.
  destruct (exec cp s db) as [[e|rows] db1]; done.
Qed.

Lemma builder_values_ok values :
  values_list values ≠ [] → builder_values values = Ret (values_list values).
Proof. unfold builder_values. by destruct (values_list values). Qed.

Lemma builder_values_empty values :
  values_list values = [] →
  builder_values values
  = Throw (DrizzleError "values() must be called with at least one value").
Proof. unfold builder_values. by intros ->. Qed.

Lemma builder_set_ok set : set ≠ ∅ → builder_set set = Ret set.
Proof. intros H. unfold builder_set. by rewrite bool_decide_eq_false_2. Qed.

Lemma builder_set_empty set :
  set = ∅ → builder_set set = Throw (DrizzleError "No values to set").
Proof. intros H. unfold builder_set. by rewrite bool_decide_eq_true_2. Qed.

Lemma run_insert_plain st cp t values db :
  tbl_onchain t = true → values_list values ≠ [] →
  run cp (insert_plain st (Some t) values) db =
  {| result := match (exec cp (Insert t (values_list values) NoClause) db).1 with
               | inl e => inl (SqlError e)
               | inr rows => inr (RRows rows)
               end;
     final := (exec cp (Insert t (values_list values) NoClause) db).2;
     trace := [Sent (Insert t (values_list values) NoClause)] |}.
Proof.
  intros Hon Hvs. unfold insert_plain.
  rewrite run_checked, builder_values_ok, ret_bind by done.
  apply run_query_then.
Qed.

Lemma run_insert_onConflictDoNothing st cp t values db :
  tbl_onchain t = true → values_list values ≠ [] →
  run cp (insert_onConflictDoNothing st (Some t) values) db =
  {| result := match (exec cp (Insert t (values_list values) DoNothing) db).1 with
               | inl e => inl (SqlError e)
               | inr rows => inr (RRows rows)
               end;
     final := (exec cp (Insert t (values_list values) DoNothing) db).2;
     trace := [Sent (Insert t (values_list values) DoNothing)] |}.
Proof.
  intros Hon Hvs. unfold insert_onConflictDoNothing.
  rewrite run_checked, builder_values_ok, ret_bind by done.
  apply run_query_then.
Qed.

Lemma run_upsert_object st cp t values o db :
  t ∈ schema st → tbl_onchain t = true →
  values_list values ≠ [] → o ≠ ∅ →
  run cp (insert_onConflictDoUpdate st (Some t) values (SetObj o)) db =
  let s := Insert t (values_list values) (DoUpdate (tbl_pk t) o) in
  {| result := match (exec cp s db).1 with
               | inl e => inl (SqlError e)
               | inr rows => inr (RRows rows)
               end;
     final := (exec cp s db).2;
     trace := [Sent s] |}.
Proof.
  intros Hin Hon Hvs Ho. unfold insert_onConflictDoUpdate.
  rewrite run_checked, builder_values_ok, ret_bind by done.
  rewrite primaryKeysCache_get, builder_set_ok, ret_bind by done.
  apply run_query_then.
Qed.

(** One value of the per-row path. *)
Lemma run_upsert_one st cp t f value db :
  t ∈ schema st →
  run cp (upsert_one st t f value) db =
  let sel := Select t (key_conditions (tbl_pk t) value) in
  let sent s :=
    {| result := match (exec cp s db).1 with
                 | inl e => inl (SqlError e)
                 | inr rows => inr rows
                 end;
       final := (exec cp s db).2;
       trace := [Sent sel; Sent s] |} in
  match found t value db with
  | None => sent (Insert t [value] NoClause)
  | Some row =>
      if bool_decide (f row = ∅)
      then {| result := inl (DrizzleError "No values to set"); final := db;
              trace := [Sent sel] |}
      else sent (Update t (f row) (key_conditions (tbl_pk t) value))
  end.
Proof.
  intros Hin. unfold upsert_one. rewrite run_find_then by done.
  destruct (found t value db) as [row|].
  - case_bool_decide as Hset.
    + by rewrite builder_set_empty.
    + rewrite builder_set_ok, ret_bind by done.
      rewrite getWhereCondition_in, ret_bind, run_query by done. reflexivity.
  - rewrite run_query. reflexivity.
Qed.

Lemma run_store_update_fn st cp t key f db :
  t ∈ schema st → tbl_onchain t = true →
  run cp (store_update st (Some t) key (SetFn f)) db =
  let sel := Select t (key_conditions (tbl_pk t) key) in
  match found t key db with
  | None =>
      {| result := inl (RecordNotFoundError
                          ("No existing record found in table '"
                             +:+ tbl_user t +:+ "'"));
         final := db; trace := [Sent sel] |}
  | Some row =>
      if bool_decide (f row = ∅)
      then {| result := inl (DrizzleError "No values to set"); final := db;
              trace := [Sent sel] |}
      else
        let s := Update t (f row) (key_conditions (tbl_pk t) key) in
        {| result := match (exec cp s db).1 with
                     | inl e => inl (SqlError e)
                     | inr rows => inr (RRows rows)
                     end;
           final := (exec cp s db).2;
           trace := [Sent sel; Sent s] |}
  end.
Proof.
  intros Hin Hon. unfold store_update. rewrite run_checked by done.
  rewrite run_find_then by done.
  destruct (found t key db) as [row|].
  - case_bool_decide as Hset.
    + by rewrite builder_set_empty.
    + rewrite builder_set_ok, ret_bind by done.
      rewrite getWhereCondition_in, ret_bind, run_query_then by done.
      reflexivity.
  - rewrite tableNameCache_get by done. reflexivity.
Qed.

Lemma run_store_update_obj st cp t key o db :
  t ∈ schema st → tbl_onchain t = true → o ≠ ∅ →
  run cp (store_update st (Some t) key (SetObj o)) db =
  let s := Update t o (key_conditions (tbl_pk t) key) in
  {| result := match (exec cp s db).1 with
               | inl e => inl (SqlError e)
               | inr rows => inr (RRows rows)
               end;
     final := (exec cp s db).2;
     trace := [Sent s] |}.
Proof.
  intros Hin Hon Ho. unfold store_update. rewrite run_checked by done.
  rewrite builder_set_ok, ret_bind by done.
  rewrite getWhereCondition_in, ret_bind by done.
  apply run_query_then.
Qed.

Lemma run_store_delete st cp t key db :
  t ∈ schema st → tbl_onchain t = true →
  run cp (store_delete st (Some t) key) db =
  let s := Delete t (key_conditions (tbl_pk t) key) in
  {| result := match (exec cp s db).1 with
               | inl e => inl (SqlError e)
               | inr deleted => inr (RBool (bool_decide (0 < length deleted)))
               end;
     final := (exec cp s db).2;
     trace := [Sent s] |}.
Proof.
  intros Hin Hon. unfold store_delete. rewrite run_checked by done.
  rewrite getWhereCondition_in, ret_bind by done.
  apply (run_query_then cp _ (λ deleted, RBool (bool_decide (0 < length deleted)))).
Qed.

Lemma run_promise_then {A B} cp (p : Prog A) (onFulfilled : A → Error + B)
    (onRejected : Error → Error + B) db :
  run cp (promise_then p onFulfilled onRejected) db =
  {| result := match result (run cp p db) with
               | inl e => onRejected e
               | inr a => onFulfilled a
               end;
     final := final (run cp p db);
     trace := trace (run cp p db) |}.
Proof.
  revert db. induction p as [a|e|s k IH|q k IH]; intros db; simpl.
  - by destruct (onFulfilled a).
  - by destruct (onRejected e).
  - destruct (exec cp s db) as [r db1]. simpl. by rewrite IH.
  - destruct (q db) as [r db1]. simpl. by rewrite IH.
Qed.

(** ** [update] *)

(** With a function, [update] first looks for the row and rejects with
    [RecordNotFoundError] when there is none. *)
Lemma update_function_missing_row st cp db t key f :
  t ∈ schema st → tbl_onchain t = true →
  (∀ row, row ∈ rows_of db t → ¬ pk_equal t key row) →
  let r := run cp (body st (CUpdate (Some t) key (SetFn f))) db in
  result r = inl (RecordNotFoundError
                    ("No existing record found in table '"
                       +:+ tbl_user t +:+ "'"))
  ∧ final r = db.
Proof.
  intros Hin Hon Hno%found_None r. subst r. simpl.
  rewrite run_store_update_fn by done. by rewrite Hno.
Qed.

(** With an object, [update] sends the [UPDATE] without looking for the
    row: when no row matches, the statement succeeds on no rows. *)
Lemma update_object_missing_row st cp db t key o :
  t ∈ schema st → tbl_onchain t = true → o ≠ ∅ →
  (∀ row, row ∈ rows_of db t → ¬ pk_equal t key row) →
  let r := run cp (body st (CUpdate (Some t) key (SetObj o))) db in
  result r = inr (RRows []) ∧ final r = db.
Proof.
  intros Hin Hon Ho Hno r. subst r. simpl.
  rewrite run_store_update_obj by done. simpl.
  destruct (exec_ok cp (Update t o (key_conditions (tbl_pk t) key)) db
              [] (rows_of db t) []) as (-> & _ & _ & ->); [|done..].
  simpl. apply update_rows_none. intros row Hrow.
  apply not_true_is_false. rewrite matches_pk_equal. by apply Hno.
Qed.

(** C1.  [update(accounts, { id: 2 }).set({ balance: 5 })] on a table
    that holds no account 2: no row matches the key, and the call
    resolves to the empty array instead of rejecting with
    [RecordNotFoundError]; with a function in place of the object the
    same call rejects with [RecordNotFoundError]. *)
Theorem update_object_no_record_found :
  (∀ row, row ∈ rows_of sample_db accounts
          → ¬ pk_equal accounts (account_key 2) row)
  ∧ result (run sample_checkpoint
              (body sample_store
                 (CUpdate (Some accounts) (account_key 2) (SetObj (set_balance 5))))
              sample_db)
    = inr (RRows [])
  ∧ result (run sample_checkpoint
              (body sample_store
                 (CUpdate (Some accounts) (account_key 2) (SetFn (λ _, set_balance 5))))
              sample_db)
    = inl (RecordNotFoundError "No existing record found in table 'accounts'").
Proof.
  split; [|split].
  - apply found_None. vm_compute. reflexivity.
  - vm_compute. reflexivity.
  - vm_compute. reflexivity.
Qed.

(** ** [delete] *)

(** C8.  [delete(table, key)] resolves to a boolean: [true] exactly
    when some row has the primary key [key], and then the rows left are
    the rows with another key; [false] when no row matches, and then the
    database is unchanged. *)
Theorem delete_spec st cp db t key :
  t ∈ schema st → tbl_onchain t = true →
  let r := run cp (body st (CDelete (Some t) key)) db in
  ∃ b, result r = inr (RBool b)
       ∧ (b = true ↔ ∃ row, row ∈ rows_of db t ∧ pk_equal t key row)
       ∧ (∀ row, row ∈ rows_of (final r) t
                 ↔ row ∈ rows_of db t ∧ ¬ pk_equal t key row)
       ∧ (b = false → final r = db).
Proof.
  intros Hin Hon r. subst r. simpl. rewrite run_store_delete by done. simpl.
  set (w := key_conditions (tbl_pk t) key).
  set (gone := filter (λ r, matches w r = true) (rows_of db t)).
  destruct (exec_ok cp (Delete t w) db gone
              (filter (λ r, matches w r = false) (rows_of db t))
              (Deleted <$> gone)) as (-> & Hrows & _ & Hsame); [done|].
  simpl in Hrows. exists (bool_decide (0 < length gone)).
  split; [done|]. split; [|split].
  - rewrite bool_decide_eq_true. split.
    + intros Hlen. destruct gone as [|row gone'] eqn:E; [simpl in Hlen; lia|].
      assert (row ∈ gone) as Hrow by (rewrite E; left).
      apply list_elem_of_filter in Hrow as [Hm Hrow].
      exists row. split; [done|]. by apply matches_pk_equal.
    + intros (row & Hrow & Hm).
      assert (row ∈ gone) as Hg.
      { apply list_elem_of_filter. split; [|done]. by apply matches_pk_equal. }
      destruct gone; [by apply elem_of_nil in Hg|simpl; lia].
  - intros row. rewrite Hrows, list_elem_of_filter.
    rewrite <- (matches_pk_equal t key row). fold w.
    destruct (matches w row); intuition congruence.
  - rewrite bool_decide_eq_false. intros Hlen. apply Hsame.
    destruct gone; [done|]. simpl in Hlen. lia.
Qed.

Lemma delete_spec_witness :
  let r := run sample_checkpoint
             (body sample_store (CDelete (Some accounts) (account_key 1)))
             sample_db in
  ∃ b, result r = inr (RBool b)
       ∧ (b = true ↔ ∃ row, row ∈ rows_of sample_db accounts
                            ∧ pk_equal accounts (account_key 1) row)
       ∧ (∀ row, row ∈ rows_of (final r) accounts
                 ↔ row ∈ rows_of sample_db accounts
                   ∧ ¬ pk_equal accounts (account_key 1) row)
       ∧ (b = false → final r = sample_db).
Proof.
  apply (delete_spec sample_store sample_checkpoint sample_db accounts
           (account_key 1)).
  - apply list_elem_of_here.
  - reflexivity.
Defined.

(** ** [insert] *)

Lemma exec_insert_fresh cp t oc x db :
  has_key t x →
  (∀ row, row ∈ rows_of db t → ¬ pk_equal t x row) →
  match oc with DoUpdate target _ => target = tbl_pk t | _ => True end →
  (exec cp (Insert t [x] oc) db).1 = inr [x]
  ∧ rows_of (exec cp (Insert t [x] oc) db).2 t = rows_of db t ++ [x]
  ∧ journal_of (exec cp (Insert t [x] oc) db).2 t =
      journal_of db t ++ [journal_row cp (tbl_pk t) (Inserted x)].
Proof.
  intros Hkey Hfree Hoc.
  assert (insert_row t oc x (rows_of db t)
          = inr ([x], rows_of db t ++ [x], [Inserted x])) as Hrow.
  { apply insert_row_fresh.
    - by apply row_ok_has_key.
    - intros r Hr. apply not_true_is_false.
      rewrite conflicts_pk_equal. by apply Hfree.
    - done. }
  destruct (exec_ok cp (Insert t [x] oc) db [x] (rows_of db t ++ [x])
              [Inserted x]) as (? & ? & ? & _); [|done].
  simpl. rewrite Hrow. by destruct oc.
Qed.

Lemma exec_insert_taken cp t x row db :
  row ∈ rows_of db t → pk_equal t x row →
  exec cp (Insert t [x] NoClause) db = (inl UniqueViolation, db).
Proof.
  intros Hrow Heq%conflicts_pk_equal. apply exec_failed. simpl.
  erewrite insert_row_taken; eauto using conflicts_has_key.
Qed.

(** C10.  The object returned by [insert(table).values(v)] is a
    thenable whose [then], [catch] and [finally] (and so [await]) run a
    plain insert without an on-conflict clause: when the primary key of
    the value is taken the insert is neither skipped nor turned into an
    update, it is rejected with the unique-constraint error and the
    table is left as it was. *)
Theorem plain_insert_conflict st cp db t values :
  tbl_onchain t = true → values_list values ≠ [] →
  (∀ B (onFulfilled : Returned → Error + B) onRejected,
     trace (run cp (inner_then st (Some t) values onFulfilled onRejected) db)
     = [Sent (Insert t (values_list values) NoClause)])
  ∧ (∀ value row,
       values = One value → row ∈ rows_of db t → pk_equal t value row →
       (∀ B (onFulfilled : Returned → Error + B) onRejected,
          let r := run cp (inner_then st (Some t) values onFulfilled onRejected) db in
          result r = onRejected (SqlError UniqueViolation) ∧ final r = db)
       ∧ result (run cp (inner_await st (Some t) values) db)
         = inl (SqlError UniqueViolation)
       ∧ (∀ onRejected,
            result (run cp (inner_catch st (Some t) values onRejected) db)
            = onRejected (SqlError UniqueViolation))
       ∧ result (run cp (inner_finally st (Some t) values) db)
         = inl (SqlError UniqueViolation)).
Proof.
  intros Hon Hvs. split.
  - intros B onF onR. unfold inner_then.
    rewrite run_promise_then, run_insert_plain by done. reflexivity.
  - intros value row -> Hrow Heq.
    assert (∀ B (onF : Returned → Error + B) onR,
              let r := run cp (inner_then st (Some t) (One value) onF onR) db in
              result r = onR (SqlError UniqueViolation) ∧ final r = db) as Hthen.
    { intros B onF onR. unfold inner_then.
      rewrite run_promise_then, run_insert_plain by done. simpl.
      by rewrite (exec_insert_taken cp t value row db). }
    split; [done|]. split; [|split].
    + apply (Hthen Returned inr inl).
    + intros onR. apply (Hthen Returned inr onR).
    + apply (Hthen Returned (λ value, inr value) (λ reason, inl reason)).
Qed.

Lemma plain_insert_conflict_witness :
  (∀ B (onFulfilled : Returned → Error + B) onRejected,
     trace (run sample_checkpoint
              (inner_then sample_store (Some accounts) (One (account 1 0))
                 onFulfilled onRejected) sample_db)
     = [Sent (Insert accounts [account 1 0] NoClause)])
  ∧ result (run sample_checkpoint
              (inner_await sample_store (Some accounts) (One (account 1 0)))
              sample_db)
    = inl (SqlError UniqueViolation).
Proof.
  destruct (plain_insert_conflict sample_store sample_checkpoint sample_db
              accounts (One (account 1 0))) as [Htrace Hconflict].
  - reflexivity.
  - discriminate.
  - split; [exact Htrace|].
    destruct (Hconflict (account 1 0) (account 1 10)) as (_ & Hawait & _).
    + reflexivity.
    + vm_compute. left.
    + apply conflicts_pk_equal. vm_compute. reflexivity.
    + exact Hawait.
Defined.

Lemma pk_equal_agree t key x row :
  (∀ c, c ∈ tbl_pk t → key !! c = x !! c) →
  pk_equal t key row ↔ pk_equal t x row.
Proof.
  intros Hagree. unfold pk_equal.
  split; intros H c Hc; destruct (H c Hc) as (v & Hk & Hr); exists v;
    (split; [|done]); [by rewrite <- Hagree|by rewrite Hagree].
Qed.

Lemma found_after_insert t key x db db' :
  has_key t x →
  (∀ c, c ∈ tbl_pk t → key !! c = x !! c) →
  (∀ row, row ∈ rows_of db t → ¬ pk_equal t x row) →
  rows_of db' t = rows_of db t ++ [x] →
  found t key db' = Some x.
Proof.
  intros Hkey Hagree Hfree Hrows. unfold found. rewrite Hrows, filter_app.
  rewrite (filter_none _ (rows_of db t)).
  - rewrite filter_cons, decide_True; [done|].
    apply matches_pk_equal, (pk_equal_agree t key x); [done|].
    intros c Hc. destruct (Hkey c Hc) as [v Hv]. eauto.
  - intros row Hrow. rewrite matches_pk_equal, (pk_equal_agree t key x) by done.
    by apply Hfree.
Qed.

(** C6.  On an onchain table, inserting a row [x] whose primary key is
    not yet present (under any conflict policy) and then calling [find]
    with the key of [x] returns [x]. *)
Theorem insert_then_find st cp db t x policy key :
  t ∈ schema st → tbl_onchain t = true →
  has_key t x →
  (∀ row, row ∈ rows_of db t → ¬ pk_equal t x row) →
  match policy with PolicyDoUpdate (SetObj o) => o ≠ ∅ | _ => True end →
  (∀ c, c ∈ tbl_pk t → key !! c = x !! c) →
  let inserted := run cp (body st (CInsert (Some t) (One x) policy)) db in
  result inserted = inr (RRows [x])
  ∧ result (run cp (body st (CFind (Some t) key)) (final inserted))
    = inr (RRow (Some x)).
Proof.
  intros Hin Hon Hkey Hfree Hpol Hagree inserted.
  assert (∀ oc,
            match oc with DoUpdate target _ => target = tbl_pk t | _ => True end →
            let s := Insert t [x] oc in
            (exec cp s db).1 = inr [x]
            ∧ found t key (exec cp s db).2 = Some x) as Hexec.
  { intros oc Hoc s.
    destruct (exec_insert_fresh cp t oc x db) as (? & ? & _); [done..|].
    split; [done|]. by eapply found_after_insert. }
  cut (result inserted = inr (RRows [x])
       ∧ found t key (final inserted) = Some x).
  { intros [? Hfound]. split; [done|]. simpl.
    rewrite run_store_find by done. simpl. by rewrite Hfound. }
  subst inserted. simpl.
  destruct policy as [| |[o|f]].
  - rewrite run_insert_plain by done. simpl.
    destruct (Hexec NoClause I) as [-> ?]. done.
  - rewrite run_insert_onConflictDoNothing by done. simpl.
    destruct (Hexec DoNothing I) as [-> ?]. done.
  - rewrite run_upsert_object by done. simpl.
    destruct (Hexec (DoUpdate (tbl_pk t) o) eq_refl) as [-> ?]. done.
  - unfold insert_onConflictDoUpdate. rewrite run_checked by done.
    rewrite run_bind, run_upsert_one by done.
    replace (found t x db) with (@None Obj) by (symmetry; by apply found_None).
    simpl. destruct (Hexec NoClause I) as [-> ?]. done.
Qed.

Lemma insert_then_find_witness :
  let inserted :=
    run sample_checkpoint
      (body sample_store (CInsert (Some accounts) (One (account 2 7)) Plain))
      sample_db in
  result inserted = inr (RRows [account 2 7])
  ∧ result (run sample_checkpoint
              (body sample_store (CFind (Some accounts) (account_key 2)))
              (final inserted))
    = inr (RRow (Some (account 2 7))).
Proof.
  apply (insert_then_find sample_store sample_checkpoint sample_db accounts
           (account 2 7) Plain (account_key 2)).
  - apply list_elem_of_here.
  - reflexivity.
  - apply row_ok_has_key. vm_compute. reflexivity.
  - apply found_None. vm_compute. reflexivity.
  - exact I.
  - intros c Hc. apply list_elem_of_singleton in Hc as ->. vm_compute. reflexivity.
Defined.

(** ** [onConflictDoUpdate] over an array *)

Lemma run_upsert_each_cons st cp t f value rest rows db :
  run cp (upsert_each st t f (value :: rest) rows) db =
  let one := run cp (upsert_one st t f value) db in
  match result one with
  | inl e => {| result := inl e; final := final one; trace := trace one |}
  | inr r =>
      let next := run cp (upsert_each st t f rest (rows ++ [r])) (final one) in
      {| result := result next; final := final next;
         trace := trace one ++ trace next |}
  end.
Proof. simpl upsert_each. by rewrite run_bind. Qed.

Lemma upsert_each_per_row st cp t f values rows db :
  t ∈ schema st →
  PerRow cp t f values db (trace (run cp (upsert_each st t f values rows) db)).
Proof.
  intros Hin. revert rows db.
  induction values as [|value rest IH]; intros rows db.
  - constructor.
  - rewrite run_upsert_each_cons, run_upsert_one by done. cbv zeta.
    destruct (found t value db) as [row|] eqn:Ef.
    + apply found_Some in Ef as [Hrow Heq].
      case_bool_decide as Hset; simpl; [by eapply PerRow_update_refused|].
      destruct (exec cp (Update t (f row) _) db) as [[e|r] db1] eqn:E; simpl.
      * by eapply PerRow_update_failed.
      * eapply PerRow_update; eauto.
    + rewrite found_None in Ef. simpl.
      destruct (exec cp (Insert t [value] NoClause) db) as [[e|r] db1] eqn:E; simpl.
      * by eapply PerRow_insert_failed.
      * eapply PerRow_insert; eauto.
Qed.

Lemma upsert_each_batches st cp t f values rows db batches :
  t ∈ schema st →
  result (run cp (upsert_each st t f values rows) db) = inr batches →
  length batches = length rows + length values.
Proof.
  intros Hin. revert rows db.
  induction values as [|value rest IH]; intros rows db.
  - simpl. intros [= <-]. lia.
  - rewrite run_upsert_each_cons. cbv zeta.
    destruct (result (run cp (upsert_one st t f value) db)) as [e|r]; simpl;
      [done|].
    intros E%IH. rewrite length_app in E. simpl in *. lia.
Qed.

Lemma run_upsert_array st cp t f values db :
  tbl_onchain t = true →
  let batch := run cp (upsert_each st t f values []) db in
  run cp (insert_onConflictDoUpdate st (Some t) (Many values) (SetFn f)) db =
  {| result := match result batch with
               | inl e => inl e
               | inr rows => inr (RBatches rows)
               end;
     final := final batch; trace := trace batch |}.
Proof.
  intros Hon batch. unfold insert_onConflictDoUpdate.
  rewrite run_checked, run_bind by done. fold batch.
  destruct (result batch); simpl; [done|]. by rewrite app_nil_r.
Qed.

(** C4, as stated: for every argument of [onConflictDoUpdate] an array
    of values would be handled one value at a time.  With an object as
    argument the store sends a single native upsert over the batch. *)
Lemma upsert_array_object_is_native :
  let values := [account 2 0; account 1 7] in
  let valuesU := SetObj (set_balance 5) in
  let tr := trace (run sample_checkpoint
                     (body sample_store
                        (CInsert (Some accounts) (Many values) (PolicyDoUpdate valuesU)))
                     sample_db) in
  native_upsert accounts values tr
  ∧ ¬ PerRow sample_checkpoint accounts (set_of valuesU) values sample_db tr.
Proof.
  cbv zeta. unfold body.
  rewrite run_upsert_object;
    [|apply list_elem_of_here|reflexivity|discriminate
     |apply insert_non_empty].
  cbv zeta. unfold trace. split.
  - by eexists _, _.
  - intros H. inversion H.
Qed.

(** C4, amended.  When [onConflictDoUpdate] is given a function and
    [values] is an array, the store handles the values one at a time in
    order: a [find] by primary key, then an insert when the row is
    absent or an update of the row found; it never sends a native upsert
    over the batch, and it resolves to one result per value. *)
Theorem upsert_array_function_per_row st cp db t values f :
  t ∈ schema st → tbl_onchain t = true →
  let r := run cp (body st (CInsert (Some t) (Many values) (PolicyDoUpdate (SetFn f)))) db in
  PerRow cp t f values db (trace r)
  ∧ ¬ native_upsert t values (trace r)
  ∧ (∀ res, result r = inr res →
       ∃ batches, res = RBatches batches ∧ length batches = length values).
Proof.
  intros Hin Hon r. subst r. simpl. rewrite run_upsert_array by done. simpl.
  pose proof (upsert_each_per_row st cp t f values [] db Hin) as Hper.
  split; [done|]. split.
  - intros (target & set & E). rewrite E in Hper. inversion Hper.
  - intros res.
    destruct (result (run cp (upsert_each st t f values []) db)) as [e|rows] eqn:E;
      [done|].
    intros [= <-]. exists rows. split; [done|].
    by apply upsert_each_batches in E.
Qed.

Lemma upsert_array_function_per_row_witness :
  let values := [account 2 0; account 1 7] in
  let f := λ row : Obj, set_balance 99 in
  let r := run sample_checkpoint
             (body sample_store
                (CInsert (Some accounts) (Many values) (PolicyDoUpdate (SetFn f))))
             sample_db in
  PerRow sample_checkpoint accounts f values sample_db (trace r)
  ∧ ¬ native_upsert accounts values (trace r)
  ∧ (∀ res, result r = inr res →
       ∃ batches, res = RBatches batches ∧ length batches = length values).
Proof.
  apply (upsert_array_function_per_row sample_store sample_checkpoint sample_db
           accounts [account 2 0; account 1 7] (λ row : Obj, set_balance 99)).
  - apply list_elem_of_here.
  - reflexivity.
Defined.

(** ** The journal *)

Lemma apply_changes_app chs1 chs2 rows :
  apply_changes (chs1 ++ chs2) rows
  = apply_changes chs2 (apply_changes chs1 rows).
Proof. apply foldl_app. Qed.

Lemma apply_changes_cons ch chs rows :
  apply_changes (ch :: chs) rows = apply_changes chs (apply_change rows ch).
Proof. reflexivity. Qed.

Lemma apply_inserted vs rows :
  apply_changes (Inserted <$> vs) rows = rows ++ vs.
Proof.
  revert rows. induction vs as [|v vs IH]; intros rows.
  - by rewrite app_nil_r.
  - rewrite fmap_cons, apply_changes_cons, IH. simpl. by rewrite <- app_assoc.
Qed.

Lemma filter_agree {A} (P Q : A → Prop) `{∀ x, Decision (P x)}
    `{∀ x, Decision (Q x)} (l : list A) :
  (∀ x, x ∈ l → P x ↔ Q x) → filter P l = filter Q l.
Proof.
  intros HPQ. induction l as [|x l IH]; [done|].
  rewrite !filter_cons, IH by (intros y Hy; apply HPQ; by right).
  apply decide_ext, HPQ. left.
Qed.

Lemma apply_deleted gone rows :
  apply_changes (Deleted <$> gone) rows = filter (λ r, r ∉ gone) rows.
Proof.
  revert rows. induction gone as [|o gone IH]; intros rows.
  - symmetry. apply filter_all. intros r _. apply not_elem_of_nil.
  - rewrite fmap_cons, apply_changes_cons, IH. simpl.
    rewrite list_filter_filter. apply list_filter_iff. intros r.
    rewrite not_elem_of_cons. tauto.
Qed.

(** What becomes of a row under the updates of the rows [ms], one after
    the other. *)
Lemma apply_updated (g : Obj → Obj) ms rows :
  apply_changes ((λ r, Updated r (g r)) <$> ms) rows
  = (λ x, foldl (λ y m, if decide (y = m) then g m else y) x ms) <$> rows.
Proof.
  revert rows. induction ms as [|m ms IH]; intros rows.
  - simpl. by rewrite list_fmap_id.
  - rewrite fmap_cons, apply_changes_cons, IH. simpl.
    by rewrite <- list_fmap_compose.
Qed.

Lemma union_twice (set r : Obj) : set ∪ (set ∪ r) = set ∪ r.
Proof. by rewrite (assoc (∪)), (idemp (∪)). Qed.

Lemma overwritten_stays (set : Obj) ms x :
  foldl (λ y m, if decide (y = m) then set ∪ m else y) (set ∪ x) ms = set ∪ x.
Proof.
  induction ms as [|m ms IH]; [done|]. simpl.
  case_decide as E; [|done]. by rewrite <- E, union_twice.
Qed.

Lemma overwritten_in (set : Obj) ms r :
  r ∈ ms →
  foldl (λ y m, if decide (y = m) then set ∪ m else y) r ms = set ∪ r.
Proof.
  induction ms as [|m ms IH]; [by intros ?%elem_of_nil|].
  intros Hr. simpl. case_decide as E.
  - subst. apply overwritten_stays.
  - apply IH. by apply elem_of_cons in Hr as [?|?].
Qed.

Lemma overwritten_out (set : Obj) ms r :
  r ∉ ms →
  foldl (λ y m, if decide (y = m) then set ∪ m else y) r ms = r.
Proof.
  induction ms as [|m ms IH]; [done|].
  intros [Hne Hr]%not_elem_of_cons. simpl. rewrite decide_False by done.
  by apply IH.
Qed.

(** The changes an [UPDATE] reports are the changes it makes. *)
Lemma update_rows_applies t set w cur ret new chs :
  update_rows t set w [] cur = inr (ret, new, chs) →
  chs = (λ r, Updated r (set ∪ r)) <$> filter (λ r, matches w r = true) cur
  ∧ new = apply_changes chs cur.
Proof.
  intros (_ & -> & ->)%update_rows_ok. split; [done|]. simpl.
  rewrite (apply_updated (λ r, set ∪ r)).
  apply Forall_fmap_ext, Forall_forall. intros r Hr.
  destruct (matches w r) eqn:E.
  - symmetry. apply overwritten_in. by apply list_elem_of_filter.
  - symmetry. apply overwritten_out.
    intros [Hm _]%list_elem_of_filter. congruence.
Qed.

Lemma delete_rows_applies w cur ret new chs :
  delete_rows w cur = inr (ret, new, chs) →
  chs = Deleted <$> filter (λ r, matches w r = true) cur
  ∧ new = apply_changes chs cur.
Proof.
  unfold delete_rows. intros [= <- <- <-]. split; [done|].
  rewrite apply_deleted. apply filter_agree. intros r Hr.
  rewrite list_elem_of_filter. destruct (matches w r); split; try done.
  - intros Hno. destruct Hno. done.
  - by intros _ [? _].
Qed.

Lemma keyed_nil t v cur :
  keyed t v cur = [] ↔ existsb (conflicts (tbl_pk t) v) cur = false.
Proof.
  rewrite existsb_false. unfold keyed, conflicts. split.
  - intros E r Hr. apply not_true_is_false. by apply (filter_nil_none _ _ E).
  - intros Hno. apply filter_none. intros r Hr. rewrite (Hno r Hr). done.
Qed.

Lemma overwrite_object t (set : Obj) key rows :
  overwrite t (λ _, set) key rows
  = (λ r, Updated r (set ∪ r)) <$> keyed t key rows.
Proof. unfold overwrite. by destruct (keyed t key rows). Qed.

Lemma each_value_inserted vs cur :
  each_value (λ v _, [Inserted v]) vs cur = Inserted <$> vs.
Proof.
  revert cur. induction vs as [|v vs IH]; intros cur; [done|].
  simpl. by rewrite IH.
Qed.

Lemma insert_row_plain_applies t v cur ret new chs :
  insert_row t NoClause v cur = inr (ret, new, chs) →
  chs = [Inserted v] ∧ new = apply_changes chs cur.
Proof.
  unfold insert_row. destruct (negb (row_ok t v)); [done|].
  destruct (existsb _ cur); [done|]. by intros [= <- <- <-].
Qed.

Lemma insert_row_do_nothing_applies t v cur ret new chs :
  insert_row t DoNothing v cur = inr (ret, new, chs) →
  chs = insert_unless_taken t (λ _ _, []) v cur ∧ new = apply_changes chs cur.
Proof.
  unfold insert_row, insert_unless_taken.
  destruct (negb (row_ok t v)); [done|].
  destruct (existsb _ cur) eqn:E.
  - intros [= <- <- <-]. destruct (keyed t v cur) eqn:Ek; [|done].
    apply keyed_nil in Ek. congruence.
  - apply keyed_nil in E as ->. by intros [= <- <- <-].
Qed.

Lemma insert_row_do_update_applies t set v cur ret new chs :
  insert_row t (DoUpdate (tbl_pk t) set) v cur = inr (ret, new, chs) →
  chs = insert_unless_taken t (overwrite t (λ _, set)) v cur
  ∧ new = apply_changes chs cur.
Proof.
  unfold insert_row, insert_unless_taken.
  destruct (negb (row_ok t v)); [done|].
  destruct (existsb _ cur) eqn:E.
  - intros Hup%update_rows_applies. rewrite overwrite_object.
    destruct (keyed t v cur) eqn:Ek; [|by rewrite <- Ek].
    apply keyed_nil in Ek. congruence.
  - apply keyed_nil in E as ->. by intros [= <- <- <-].
Qed.

Lemma insert_rows_applies t oc one vs :
  (∀ v cur ret new chs,
     insert_row t oc v cur = inr (ret, new, chs) →
     chs = one v cur ∧ new = apply_changes chs cur) →
  ∀ cur ret new chs,
    insert_rows t oc vs cur = inr (ret, new, chs) →
    chs = each_value one vs cur ∧ new = apply_changes chs cur.
Proof.
  intros Hone. induction vs as [|v vs IH]; intros cur ret new chs; simpl.
  - by intros [= <- <- <-].
  - destruct (insert_row t oc v cur) as [e|[[ret1 cur1] chs1]] eqn:E1; [done|].
    destruct (insert_rows t oc vs cur1) as [e|[[ret2 cur2] chs2]] eqn:E2; [done|].
    intros [= <- <- <-].
    apply Hone in E1 as [-> ->]. apply IH in E2 as [-> ->].
    by rewrite apply_changes_app.
Qed.

Lemma exec_succeeded cp s db rows :
  (exec cp s db).1 = inr rows →
  ∃ new chs, run_stmt s (rows_of db (stmt_table s)) = inr (rows, new, chs).
Proof.
  unfold exec.
  destruct (run_stmt s (rows_of db (stmt_table s))) as [e|[[ret new] chs]];
    [done|].
  destruct chs; simpl; intros [= ->]; eauto.
Qed.

(** A statement commits its rows together with one journal row per
    change. *)
Lemma exec_journalled cp s db rows chs :
  (exec cp s db).1 = inr rows →
  (∀ ret new chs',
     run_stmt s (rows_of db (stmt_table s)) = inr (ret, new, chs') →
     chs' = chs ∧ new = apply_changes chs (rows_of db (stmt_table s))) →
  journalled cp (stmt_table s) chs db (exec cp s db).2.
Proof.
  intros (new & chs' & E)%exec_succeeded Hchs.
  destruct (Hchs _ _ _ E) as [-> ->].
  destruct (exec_ok cp s db _ _ _ E) as (_ & Hrows & Hj & _).
  by split.
Qed.

Lemma exec_insert_plain_journalled cp t vs db rows :
  (exec cp (Insert t vs NoClause) db).1 = inr rows →
  journalled cp t (Inserted <$> vs) db (exec cp (Insert t vs NoClause) db).2.
Proof.
  intros E. apply (exec_journalled cp (Insert t vs NoClause) db rows); [done|].
  simpl. intros ret new chs Hrun.
  apply (insert_rows_applies t NoClause (λ v _, [Inserted v])) in Hrun
    as [-> ->]; [|apply insert_row_plain_applies].
  by rewrite each_value_inserted.
Qed.

Lemma exec_do_nothing_journalled cp t vs db rows :
  (exec cp (Insert t vs DoNothing) db).1 = inr rows →
  journalled cp t
    (each_value (insert_unless_taken t (λ _ _, [])) vs (rows_of db t))
    db (exec cp (Insert t vs DoNothing) db).2.
Proof.
  intros E. apply (exec_journalled cp (Insert t vs DoNothing) db rows); [done|].
  simpl. intros ret new chs Hrun.
  apply (insert_rows_applies t DoNothing
           (insert_unless_taken t (λ _ _, []))) in Hrun;
    [by destruct Hrun as [-> ->]|apply insert_row_do_nothing_applies].
Qed.

Lemma exec_do_update_journalled cp t vs set db rows :
  let s := Insert t vs (DoUpdate (tbl_pk t) set) in
  (exec cp s db).1 = inr rows →
  journalled cp t
    (each_value (insert_unless_taken t (overwrite t (λ _, set))) vs
       (rows_of db t))
    db (exec cp s db).2.
Proof.
  intros s E. apply (exec_journalled cp s db rows); [done|].
  simpl. intros ret new chs.
  destruct (distinct_keys (tbl_pk t) vs); [|done]. intros Hrun.
  apply (insert_rows_applies t (DoUpdate (tbl_pk t) set)
           (insert_unless_taken t (overwrite t (λ _, set)))) in Hrun;
    [by destruct Hrun as [-> ->]|apply insert_row_do_update_applies].
Qed.

Lemma exec_update_journalled cp t set key db rows :
  let s := Update t set (key_conditions (tbl_pk t) key) in
  (exec cp s db).1 = inr rows →
  journalled cp t
    ((λ r, Updated r (set ∪ r)) <$> keyed t key (rows_of db t))
    db (exec cp s db).2.
Proof.
  intros s E. apply (exec_journalled cp s db rows); [done|].
  simpl. intros ret new chs Hrun.
  by apply update_rows_applies in Hrun as [-> ->].
Qed.

Lemma exec_delete_journalled cp t key db rows :
  let s := Delete t (key_conditions (tbl_pk t) key) in
  (exec cp s db).1 = inr rows →
  journalled cp t (Deleted <$> keyed t key (rows_of db t)) db (exec cp s db).2.
Proof.
  intros s E. apply (exec_journalled cp s db rows); [done|].
  simpl. intros ret new chs Hrun.
  by apply delete_rows_applies in Hrun as [-> ->].
Qed.

Lemma journalled_nothing cp t db : journalled cp t [] db db.
Proof. split; [done|]. by rewrite app_nil_r. Qed.

Lemma journalled_then cp t chs1 chs2 db1 db2 db3 :
  journalled cp t chs1 db1 db2 → journalled cp t chs2 db2 db3 →
  journalled cp t (chs1 ++ chs2) db1 db3.
Proof.
  intros [R1 J1] [R2 J2]. split.
  - by rewrite apply_changes_app, <- R1.
  - by rewrite J2, J1, fmap_app, app_assoc.
Qed.

(** One value of the per-row path. *)
Lemma upsert_one_journalled st cp t f value db rows :
  t ∈ schema st →
  result (run cp (upsert_one st t f value) db) = inr rows →
  journalled cp t
    (insert_unless_taken t (overwrite t f) value (rows_of db t))
    db (final (run cp (upsert_one st t f value) db)).
Proof.
  intros Hin. rewrite run_upsert_one by done. cbv zeta.
  unfold insert_unless_taken, overwrite, found. fold (keyed t value (rows_of db t)).
  destruct (keyed t value (rows_of db t)) as [|row hit] eqn:Ek; simpl.
  - destruct (exec cp _ db).1 as [e|ret] eqn:E; [done|]. intros _.
    by eapply (exec_insert_plain_journalled cp t [value]).
  - case_bool_decide; [done|].
    destruct (exec cp _ db).1 as [e|ret] eqn:E; [done|]. intros _.
    change (Updated row (f row ∪ row) :: _)
      with ((λ r, Updated r (f row ∪ r)) <$> row :: hit).
    rewrite <- Ek. by eapply exec_update_journalled.
Qed.

Lemma upsert_each_journalled st cp t f values acc db batches :
  t ∈ schema st →
  result (run cp (upsert_each st t f values acc) db) = inr batches →
  journalled cp t
    (each_value (insert_unless_taken t (overwrite t f)) values (rows_of db t))
    db (final (run cp (upsert_each st t f values acc) db)).
Proof.
  intros Hin. revert acc db.
  induction values as [|value rest IH]; intros acc db.
  - intros _. apply journalled_nothing.
  - rewrite run_upsert_each_cons. cbv zeta.
    destruct (result (run cp (upsert_one st t f value) db)) as [e|r] eqn:E;
      [done|].
    cbn [result final]. intros Hrest.
    pose proof (upsert_one_journalled st cp t f value db r Hin E) as Hone.
    cbn [each_value]. eapply journalled_then; [exact Hone|].
    destruct Hone as [<- _]. by eapply IH.
Qed.

Lemma exec_failed_unchanged cp s db e :
  (exec cp s db).1 = inl e → (exec cp s db).2 = db.
Proof.
  destruct (exec cp s db) as [r db'] eqn:E. simpl. intros ->.
  by apply exec_atomic in E.
Qed.

Lemma OnlyOn_bind {A B} t (p : Prog A) (f : A → Prog B) :
  OnlyOn t p → (∀ a, OnlyOn t (f a)) → OnlyOn t (p ≫= f).
Proof.
  intros Hp Hf. unfold mbind, Prog_bind.
  induction Hp as [a|e|s k Hs Hk IH]; simpl; [done|constructor|].
  constructor; [done|]. intros r. apply IH.
Qed.

Lemma OnlyOn_query t s : stmt_table s = t → OnlyOn t (query s).
Proof.
  intros Hs. constructor; [done|]. intros [e|rows]; constructor.
Qed.

Lemma OnlyOn_check {A} t table m (f : Table → Prog A) :
  (∀ t', table = Some t' → OnlyOn t (f t')) →
  OnlyOn t (checkOnchainTable table m ≫= f).
Proof.
  intros Hf. unfold checkOnchainTable. destruct table as [t'|]; [|constructor].
  destruct (tbl_onchain t'); [|constructor]. by apply Hf.
Qed.

Lemma OnlyOn_getWhereCondition {A} st t key (f : Where → Prog A) :
  (∀ w, OnlyOn t (f w)) → OnlyOn t (getWhereCondition st t key ≫= f).
Proof.
  intros Hf. unfold getWhereCondition.
  destruct (cache_get _ t); [apply Hf|constructor].
Qed.

Lemma OnlyOn_builder_values {A} t values (f : list Obj → Prog A) :
  (∀ vs, OnlyOn t (f vs)) → OnlyOn t (builder_values values ≫= f).
Proof.
  intros Hf. unfold builder_values.
  destruct (values_list values); [constructor|apply Hf].
Qed.

Lemma OnlyOn_builder_set {A} t set (f : Obj → Prog A) :
  (∀ set', OnlyOn t (f set')) → OnlyOn t (builder_set set ≫= f).
Proof.
  intros Hf. unfold builder_set. case_bool_decide; [constructor|apply Hf].
Qed.

Lemma OnlyOn_find st t key : OnlyOn t (find st t key).
Proof.
  unfold find. apply OnlyOn_getWhereCondition. intros w.
  apply OnlyOn_bind; [by apply OnlyOn_query|]. constructor.
Qed.

Lemma OnlyOn_upsert_one st t f value : OnlyOn t (upsert_one st t f value).
Proof.
  unfold upsert_one. apply OnlyOn_bind; [apply OnlyOn_find|].
  intros [row|]; [|by apply OnlyOn_query].
  apply OnlyOn_builder_set. intros set.
  apply OnlyOn_getWhereCondition. intros w. by apply OnlyOn_query.
Qed.

Lemma OnlyOn_upsert_each st t f values rows :
  OnlyOn t (upsert_each st t f values rows).
Proof.
  revert rows. induction values as [|value rest IH]; intros rows; simpl.
  - constructor.
  - apply OnlyOn_bind; [apply OnlyOn_upsert_one|]. intros r. apply IH.
Qed.

Lemma OnlyOn_then {A B} t (p : Prog A) (f : A → B) :
  OnlyOn t p → OnlyOn t (a ← p; Ret (f a)).
Proof. intros Hp. apply OnlyOn_bind; [done|]. constructor. Qed.

(** The statements of a write all address the table of the call. *)
Lemma write_only_on st c t :
  is_write c = true → call_table c = Some (Some t) → OnlyOn t (body st c).
Proof.
  destruct c as [tb key|tb values [| |[o|f]]|tb key [o|f]|tb key|q];
    intros [=] [= ->]; simpl.
  - apply OnlyOn_check. intros t' [= <-]. apply OnlyOn_builder_values.
    intros vs. by apply OnlyOn_then, OnlyOn_query.
  - apply OnlyOn_check. intros t' [= <-]. apply OnlyOn_builder_values.
    intros vs. by apply OnlyOn_then, OnlyOn_query.
  - apply OnlyOn_check. intros t' [= <-]. apply OnlyOn_builder_values.
    intros vs. destruct (cache_get _ t); [|constructor].
    apply OnlyOn_builder_set. intros set. by apply OnlyOn_then, OnlyOn_query.
  - apply OnlyOn_check. intros t' [= <-].
    destruct values; apply OnlyOn_then;
      [apply OnlyOn_upsert_one|apply OnlyOn_upsert_each].
  - apply OnlyOn_check. intros t' [= <-]. apply OnlyOn_builder_set.
    intros set. apply OnlyOn_getWhereCondition. intros w.
    by apply OnlyOn_then, OnlyOn_query.
  - apply OnlyOn_check. intros t' [= <-].
    apply OnlyOn_bind; [apply OnlyOn_find|]. intros [row|]; [|constructor].
    apply OnlyOn_builder_set. intros set.
    apply OnlyOn_getWhereCondition. intros w. by apply OnlyOn_then, OnlyOn_query.
  - apply OnlyOn_check. intros t' [= <-].
    apply OnlyOn_getWhereCondition. intros w.
    apply OnlyOn_bind; [by apply OnlyOn_query|]. constructor.
Qed.

(** A single value of the per-row path that fails leaves the database as
    it was. *)
Lemma upsert_one_failed st cp t f value db e :
  t ∈ schema st →
  result (run cp (upsert_one st t f value) db) = inl e →
  final (run cp (upsert_one st t f value) db) = db.
Proof.
  intros Hin. rewrite run_upsert_one by done. cbv zeta.
  assert (∀ s, match (exec cp s db).1 with
               | inl e => inl (SqlError e)
               | inr rows => inr rows
               end = inl e → (exec cp s db).2 = db) as Hexec.
  { intros s. destruct (exec cp s db).1 as [e'|rows] eqn:E; [|done].
    intros _. by eapply exec_failed_unchanged. }
  destruct (found t value db) as [row|]; [|apply Hexec].
  case_bool_decide; [done|apply Hexec].
Qed.

Lemma upsert_each_failed st cp t f values rows db e :
  t ∈ schema st →
  result (run cp (upsert_each st t f values rows) db) = inl e →
  ∃ committed value rest batches,
    values = committed ++ value :: rest
    ∧ result (run cp (upsert_each st t f committed rows) db) = inr batches
    ∧ final (run cp (upsert_each st t f values rows) db)
      = final (run cp (upsert_each st t f committed rows) db).
Proof.
  intros Hin. revert rows db.
  induction values as [|value rest IH]; intros rows db; [done|].
  rewrite run_upsert_each_cons. cbv zeta.
  destruct (result (run cp (upsert_one st t f value) db)) as [e'|r] eqn:E;
    simpl.
  - intros _. exists [], value, rest, rows. split; [done|]. split; [done|].
    simpl. by eapply upsert_one_failed.
  - intros (committed & value' & rest' & batches & -> & Hok & Hfinal)%IH.
    exists (value :: committed), value', rest', batches. split; [done|].
    rewrite run_upsert_each_cons. cbv zeta. rewrite E. done.
Qed.

Lemma overwrite_found t f key rows row hit :
  keyed t key rows = row :: hit →
  overwrite t f key rows = (λ r, Updated r (f row ∪ r)) <$> keyed t key rows.
Proof. unfold overwrite. by intros ->. Qed.

(** C2.  A write ([insert] under any conflict policy, [update],
    [delete]) on an onchain table that resolves has written, in one
    step with the user rows, exactly one journal row for every row it
    inserted, overwrote or removed, in that order.  The journal row
    carries the checkpoint of the event, the operation and the primary
    key of the row, no before image for an insert, and the row as it
    was for an update or a delete.  The rows written are the rows the
    call asks for ([write_changes]): every value of an [insert], the
    values with a free key under [onConflictDoNothing], every value or
    the row in its place under [onConflictDoUpdate], the row under the
    key of an [update] or a [delete]; a call that finds no row to write
    adds no journal row.  Nothing else changes in the table and nothing
    else enters the journal.  A write that fails leaves the database as
    it was: neither user rows nor journal rows of the failed transaction
    persist.  (An array handled one value at a time is one transaction
    per value: when a value fails, the database is as the values before
    it left it.) *)
Theorem write_journalled st cp db c t :
  is_write c = true → call_table c = Some (Some t) →
  t ∈ schema st → tbl_onchain t = true →
  let r := run cp (body st c) db in
  (∀ res, result r = inr res →
     journalled cp t (write_changes t c (rows_of db t)) db (final r))
  ∧ (∀ e, result r = inl e →
       match c with
       | CInsert _ (Many values) (PolicyDoUpdate (SetFn f)) =>
           ∃ committed value rest,
             values = committed ++ value :: rest
             ∧ (let r' := run cp (body st (CInsert (Some t) (Many committed)
                                             (PolicyDoUpdate (SetFn f)))) db in
                (∃ res, result r' = inr res) ∧ final r = final r')
       | _ => final r = db
       end).
Proof.
  intros Hw Ht Hin Hon r. split.
  { intros res. subst r.
    destruct c as [tb key|tb values [| |[o|f]]|tb key [o|f]|tb key|q];
      simplify_eq/=.
    - destruct (decide (values_list values = [])) as [Hvs|Hvs].
      { unfold insert_plain.
        by rewrite run_checked, builder_values_empty by done. }
      rewrite run_insert_plain by done. cbn [result final].
      destruct (exec cp _ db).1 as [e|rows] eqn:E; [done|]. intros _.
      by eapply exec_insert_plain_journalled.
    - destruct (decide (values_list values = [])) as [Hvs|Hvs].
      { unfold insert_onConflictDoNothing.
        by rewrite run_checked, builder_values_empty by done. }
      rewrite run_insert_onConflictDoNothing by done. cbn [result final].
      destruct (exec cp _ db).1 as [e|rows] eqn:E; [done|]. intros _.
      by eapply exec_do_nothing_journalled.
    - destruct (decide (values_list values = [])) as [Hvs|Hvs].
      { unfold insert_onConflictDoUpdate.
        by rewrite run_checked, builder_values_empty by done. }
      destruct (decide (o = ∅)) as [Ho|Ho].
      { unfold insert_onConflictDoUpdate.
        rewrite run_checked, builder_values_ok, ret_bind by done.
        by rewrite primaryKeysCache_get, builder_set_empty by done. }
      rewrite run_upsert_object by done. cbn [result final].
      destruct (exec cp _ db).1 as [e|rows] eqn:E; [done|]. intros _.
      by eapply exec_do_update_journalled.
    - destruct values as [value|values].
      + unfold insert_onConflictDoUpdate. rewrite run_checked by done.
        rewrite run_bind.
        destruct (result (run cp (upsert_one st t f value) db))
          as [e|rows] eqn:E; [done|].
        cbn [result final values_list each_value]. intros _.
        rewrite app_nil_r. by eapply upsert_one_journalled.
      + rewrite run_upsert_array by done. cbn [result final values_list].
        destruct (result (run cp (upsert_each st t f values []) db))
          as [e|rows] eqn:E; [done|].
        intros _. by eapply upsert_each_journalled.
    - destruct (decide (o = ∅)) as [Ho|Ho].
      { unfold store_update.
        by rewrite run_checked, builder_set_empty by done. }
      rewrite run_store_update_obj by done. cbn [result final].
      destruct (exec cp _ db).1 as [e|rows] eqn:E; [done|]. intros _.
      rewrite overwrite_object. by eapply exec_update_journalled.
    - rewrite run_store_update_fn by done. cbv zeta. unfold found.
      fold (keyed t key (rows_of db t)).
      destruct (keyed t key (rows_of db t)) as [|row hit] eqn:Ek; [done|].
      cbn [head]. case_bool_decide; [done|]. cbn [result final].
      destruct (exec cp _ db).1 as [e|rows] eqn:E; [done|]. intros _.
      rewrite (overwrite_found _ _ _ _ _ _ Ek).
      by eapply exec_update_journalled.
    - rewrite run_store_delete by done. cbn [result final].
      destruct (exec cp _ db).1 as [e|rows] eqn:E; [done|]. intros _.
      by eapply exec_delete_journalled. }
  intros e. subst r.
  assert (∀ s (g : list Obj → Returned),
            match (exec cp s db).1 with
            | inl e => inl (SqlError e)
            | inr rows => inr (g rows)
            end = inl e → (exec cp s db).2 = db) as Hexec.
  { intros s g. destruct (exec cp s db).1 as [e'|rows] eqn:E; [|done].
    intros _. by eapply exec_failed_unchanged. }
  destruct c as [tb key|tb values [| |[o|f]]|tb key [o|f]|tb key|q];
    simplify_eq/=.
  - destruct (decide (values_list values = [])) as [Hvs|Hvs].
    + unfold insert_plain.
      rewrite run_checked, builder_values_empty by done. by destruct values.
    + rewrite run_insert_plain by done. destruct values; apply Hexec.
  - destruct (decide (values_list values = [])) as [Hvs|Hvs].
    + unfold insert_onConflictDoNothing.
      rewrite run_checked, builder_values_empty by done. by destruct values.
    + rewrite run_insert_onConflictDoNothing by done.
      destruct values; apply Hexec.
  - destruct (decide (values_list values = [])) as [Hvs|Hvs].
    { unfold insert_onConflictDoUpdate.
      rewrite run_checked, builder_values_empty by done. by destruct values. }
    destruct (decide (o = ∅)) as [Ho|Ho].
    { unfold insert_onConflictDoUpdate.
      rewrite run_checked, builder_values_ok, ret_bind by done.
      rewrite primaryKeysCache_get, builder_set_empty by done.
      by destruct values. }
    rewrite run_upsert_object by done. destruct values; apply Hexec.
  - destruct values as [value|values].
    + unfold insert_onConflictDoUpdate. rewrite run_checked by done.
      rewrite run_bind.
      destruct (result (run cp (upsert_one st t f value) db)) as [e'|r] eqn:E;
        simpl; [|done].
      intros _. by eapply upsert_one_failed.
    + rewrite run_upsert_array by done. simpl.
      destruct (result (run cp (upsert_each st t f values []) db))
        as [e'|rows] eqn:E; [|done].
      intros _.
      apply upsert_each_failed in E
        as (committed & value & rest & batches & -> & Hok & Hfinal); [|done].
      exists committed, value, rest. split; [done|].
      rewrite run_upsert_array by done. simpl. rewrite Hok. eauto.
  - destruct (decide (o = ∅)) as [Ho|Ho].
    + unfold store_update. by rewrite run_checked, builder_set_empty by done.
    + rewrite run_store_update_obj by done. apply Hexec.
  - rewrite run_store_update_fn by done. cbv zeta.
    destruct (found t key db); [|done].
    case_bool_decide; [done|apply Hexec].
  - rewrite run_store_delete by done. simpl.
    destruct (exec cp _ db).1 as [e'|rows] eqn:E; [|done].
    intros _. by eapply exec_failed_unchanged.
Qed.

Lemma write_journalled_witness :
  (let c := CUpdate (Some accounts) (account_key 1) (SetObj (set_balance 5)) in
   let r := run sample_checkpoint (body sample_store c) sample_db in
   result r = inr (RRows [account 1 5])
   ∧ journalled sample_checkpoint accounts
       [Updated (account 1 10) (account 1 5)] sample_db (final r)
   ∧ journal_of (final r) accounts =
       [{| j_operation := OpUpdate; j_checkpoint := sample_checkpoint;
           j_primary_key := [Some (VNum 1)];
           j_before_image := Some (account 1 10) |}])
  ∧ (let c := CInsert (Some accounts) (One (account 1 7)) Plain in
     let r := run sample_checkpoint (body sample_store c) sample_db in
     result r = inl (SqlError UniqueViolation) ∧ final r = sample_db).
Proof.
  split; cbv zeta.
  - pose proof (write_journalled sample_store sample_checkpoint sample_db
                  (CUpdate (Some accounts) (account_key 1)
                     (SetObj (set_balance 5)))
                  accounts eq_refl eq_refl (list_elem_of_here _ _) eq_refl)
      as [Hok _].
    assert (result (run sample_checkpoint
                      (body sample_store
                         (CUpdate (Some accounts) (account_key 1)
                            (SetObj (set_balance 5)))) sample_db)
            = inr (RRows [account 1 5])) as Hres
      by (vm_compute; reflexivity).
    specialize (Hok _ Hres).
    assert (write_changes accounts
              (CUpdate (Some accounts) (account_key 1) (SetObj (set_balance 5)))
              (rows_of sample_db accounts)
            = [Updated (account 1 10) (account 1 5)]) as Hchs
      by (vm_compute; reflexivity).
    rewrite Hchs in Hok. split; [exact Hres|]. split; [exact Hok|].
    destruct Hok as [_ ->]. vm_compute; reflexivity.
  - pose proof (write_journalled sample_store sample_checkpoint sample_db
                  (CInsert (Some accounts) (One (account 1 7)) Plain)
                  accounts eq_refl eq_refl (list_elem_of_here _ _) eq_refl)
      as [_ Hfail].
    assert (result (run sample_checkpoint
                      (body sample_store
                         (CInsert (Some accounts) (One (account 1 7)) Plain))
                      sample_db)
            = inl (SqlError UniqueViolation)) as Hres
      by (vm_compute; reflexivity).
    split; [exact Hres|]. exact (Hfail _ Hres).
Defined.

(** The update of account 1 under the sample checkpoint: the new balance
    is stored and the journal holds the row as it was. *)
Example update_journal_row :
  let r := run sample_checkpoint
             (body sample_store
                (CUpdate (Some accounts) (account_key 1) (SetObj (set_balance 5))))
             sample_db in
  result r = inr (RRows [account 1 5])
  ∧ rows_of (final r) accounts = [account 1 5]
  ∧ journal_of (final r) accounts =
      [{| j_operation := OpUpdate; j_checkpoint := sample_checkpoint;
          j_primary_key := [Some (VNum 1)];
          j_before_image := Some (account 1 10) |}].
Proof. cbv zeta. split; [|split]; vm_compute; reflexivity. Qed.

(** The insert of account 2: the journal holds an insert row under its
    key, without before image. *)
Example insert_journal_row :
  let r := run sample_checkpoint
             (body sample_store
                (CInsert (Some accounts) (One (account 2 0)) Plain))
             sample_db in
  result r = inr (RRows [account 2 0])
  ∧ rows_of (final r) accounts = [account 1 10; account 2 0]
  ∧ journal_of (final r) accounts =
      [{| j_operation := OpInsert; j_checkpoint := sample_checkpoint;
          j_primary_key := [Some (VNum 2)];
          j_before_image := None |}].
Proof. cbv zeta. split; [|split]; vm_compute; reflexivity. Qed.

(** The delete of account 1: the journal holds the row that is gone. *)
Example delete_journal_row :
  let r := run sample_checkpoint
             (body sample_store (CDelete (Some accounts) (account_key 1)))
             sample_db in
  result r = inr (RBool true)
  ∧ rows_of (final r) accounts = []
  ∧ journal_of (final r) accounts =
      [{| j_operation := OpDelete; j_checkpoint := sample_checkpoint;
          j_primary_key := [Some (VNum 1)];
          j_before_image := Some (account 1 10) |}].
Proof. cbv zeta. split; [|split]; vm_compute; reflexivity. Qed.

(** A delete that finds no row resolves to [false]; it has written
    nothing, and there is nothing to journal. *)
Example delete_nothing_journals_nothing :
  let r := run sample_checkpoint
             (body sample_store (CDelete (Some accounts) (account_key 2)))
             sample_db in
  result r = inr (RBool false) ∧ final r = sample_db.
Proof. cbv zeta. split; vm_compute; reflexivity. Qed.

(** ** The operation queue *)

Lemma run_all_app cp ps qs db :
  run_all cp (ps ++ qs) db =
  ((run_all cp ps db).1 ++ (run_all cp qs (run_all cp ps db).2).1,
   (run_all cp qs (run_all cp ps db).2).2).
Proof.
  revert db. induction ps as [|p ps IH]; intros db; simpl.
  - by destruct (run_all cp qs db).
  - rewrite IH. destruct (run_all cp ps (final (run cp p db))) as [rs db1].
    simpl. by destruct (run_all cp qs db1).
Qed.

Lemma run_all_exec cp s k ps db :
  run_all cp (Exec s k :: ps) db =
  run_all cp (k (exec cp s db).1 :: ps) (exec cp s db).2.
Proof. simpl. by destruct (exec cp s db). Qed.

Lemma run_all_exec_raw cp (q : RawQuery) k ps db :
  run_all cp (ExecRaw q k :: ps) db = run_all cp (k (q db).1 :: ps) (q db).2.
Proof. simpl. by destruct (q db). Qed.

Lemma run_all_ret cp a ps db :
  run_all cp (Ret a :: ps) db =
  (inr a :: (run_all cp ps db).1, (run_all cp ps db).2).
Proof. simpl. by destruct (run_all cp ps db). Qed.

Lemma run_all_throw cp e ps db :
  run_all cp (Throw e :: ps) db =
  (inl e :: (run_all cp ps db).1, (run_all cp ps db).2).
Proof. simpl. by destruct (run_all cp ps db). Qed.

Lemma run_all_nil cp db : run_all cp [] db = ([], db).
Proof. reflexivity. Qed.

Lemma run_all_singleton cp p db :
  run_all cp [p] db = ([result (run cp p db)], final (run cp p db)).
Proof. reflexivity. Qed.

#[local] Arguments run_all : simpl never.

Lemma submitted_app ls1 ls2 : submitted (ls1 ++ ls2) = submitted ls1 ++ submitted ls2.
Proof. apply omap_app. Qed.

Lemma queue_run_app cp st ls1 ls2 σ :
  queue_run cp st (ls1 ++ ls2) σ =
  match queue_run cp st ls1 σ with
  | Some σ' => queue_run cp st ls2 σ'
  | None => None
  end.
Proof.
  revert σ. induction ls1 as [|l ls1 IH]; intros σ; simpl; [done|].
  destruct (queue_step cp st l σ); [apply IH|done].
Qed.

Lemma queue_inv_init cp st db0 : queue_inv cp st [] db0 (createQueue 1 db0).
Proof. repeat split; simpl; lia. Qed.

Lemma sole_running (l : list Task) i task :
  length l ≤ 1 → l !! i = Some task → l = [task] ∧ i = 0.
Proof.
  destruct l as [|x [|y l]]; simpl; intros Hlen Hi; [done| |lia].
  destruct i; simplify_eq/=; done.
Qed.

Lemma queue_step_inv cp st calls db0 l σ σ' :
  queue_inv cp st calls db0 σ →
  queue_step cp st l σ = Some σ' →
  queue_inv cp st (calls ++ submitted [l]) db0 σ'.
Proof.
  destruct σ as [conc n pend run done db].
  unfold queue_inv, in_submission_order, serial, waiting. simpl.
  intros (-> & Hlen & (Hdone & Hids & Hn) & Hserial) Hstep.
  destruct l as [c| |i|i]; simpl in Hstep.
  - (* a call is added *)
    simplify_eq/=. split; [done|]. split; [done|].
    rewrite !app_assoc, !fmap_app, !length_app. simpl.
    split; [split; [done|split; [|lia]]|].
    + by rewrite <- fmap_app, Hids, length_app, Nat.add_1_r, seq_S.
    + rewrite <- fmap_app, !run_all_app, Hserial, !run_all_singleton. simpl.
      by rewrite <- !app_assoc.
  - (* the oldest pending call starts *)
    destruct pend as [|task rest]; [done|].
    case_decide as Hfree; [|done]. simplify_eq/=.
    destruct run as [|? ?]; [|simpl in Hfree; lia]. simpl in *.
    by rewrite app_nil_r in *.
  - (* the call in flight advances *)
    destruct (run !! i) as [[id p]|] eqn:Hi; [|done].
    destruct (sole_running run i _ Hlen Hi) as [-> ->].
    destruct p as [a|e|s k|q k]; try done.
    + simpl in Hserial. rewrite run_all_exec in Hserial.
      destruct (exec cp s db) as [r db1]. simplify_eq/=.
      rewrite app_nil_r. repeat split; try done; by f_equal.
    + simpl in Hserial. rewrite run_all_exec_raw in Hserial.
      destruct (q db) as [r db1]. simplify_eq/=.
      rewrite app_nil_r. repeat split; try done; by f_equal.
  - (* the call in flight settles *)
    destruct (run !! i) as [[id p]|] eqn:Hi; [|done].
    destruct (sole_running run i _ Hlen Hi) as [-> ->].
    simpl in Hids. injection Hids as Hid Hrest.
    assert (∀ r : Error + Returned,
              run_all cp (body st <$> calls) db0 =
                (done.*2 ++ r :: (run_all cp (task_body <$> pend) db).1,
                 (run_all cp (task_body <$> pend) db).2) →
              queue_inv cp st (calls ++ []) db0
                {| concurrency := 1; added := n; pending := pend;
                   running := []; settled := done ++ [(id, r)];
                   database := db |}) as Hsettle.
    { intros r Hs. subst id.
      unfold queue_inv, in_submission_order, serial, waiting. simpl.
      rewrite app_nil_r, !fmap_app, !length_app. simpl.
      split; [done|]. split; [lia|]. split; [split; [|split]|].
      - by rewrite Hdone, Nat.add_1_r, seq_S.
      - etrans; [exact Hrest|]. f_equal. lia.
      - simpl in Hn. lia.
      - rewrite Hs. by rewrite <- app_assoc. }
    destruct p as [a|e|s k|q k]; try done; simplify_eq/=.
    + apply Hsettle. by rewrite Hserial, run_all_ret.
    + apply Hsettle. by rewrite Hserial, run_all_throw.
Qed.

Lemma queue_run_inv cp st calls db0 ls σ σ' :
  queue_inv cp st calls db0 σ →
  queue_run cp st ls σ = Some σ' →
  queue_inv cp st (calls ++ submitted ls) db0 σ'.
Proof.
  revert calls σ. induction ls as [|l ls IH]; intros calls σ Hinv;
    cbn [queue_run].
  - intros [= <-]. by rewrite app_nil_r.
  - destruct (queue_step cp st l σ) as [σ1|] eqn:E; [|done].
    intros Hrun. change (l :: ls) with ([l] ++ ls).
    rewrite submitted_app, app_assoc. eapply IH; [|done].
    by eapply queue_step_inv.
Qed.

(** An operation in flight alone runs to completion. *)
Lemma drain_running cp st p :
  ∀ id σ, running σ = [{| task_id := id; task_body := p |}] →
  ∃ ls σ', submitted ls = [] ∧ queue_run cp st ls σ = Some σ'
           ∧ running σ' = [] ∧ pending σ' = pending σ
           ∧ concurrency σ' = concurrency σ.
Proof.
  induction p as [a|e|s k IH|q k IH];
    intros id [conc n pend run done db] Hrun; simpl in Hrun; subst run.
  - by eexists [LSettle 0], _.
  - by eexists [LSettle 0], _.
  - destruct (exec cp s db) as [r db1] eqn:E.
    edestruct (IH r id
                 {| concurrency := conc; added := n; pending := pend;
                    running := [{| task_id := id; task_body := k r |}];
                    settled := done; database := db1 |})
      as (ls & σ' & Hls & Hq & ? & ? & ?); [done|].
    exists (LAdvance 0 :: ls), σ'. split; [done|]. split; [|done].
    simpl. by rewrite E.
  - destruct (q db) as [r db1] eqn:E.
    edestruct (IH r id
                 {| concurrency := conc; added := n; pending := pend;
                    running := [{| task_id := id; task_body := k r |}];
                    settled := done; database := db1 |})
      as (ls & σ' & Hls & Hq & ? & ? & ?); [done|].
    exists (LAdvance 0 :: ls), σ'. split; [done|]. split; [|done].
    simpl. by rewrite E.
Qed.

Lemma drain_first cp st σ :
  length (running σ) ≤ 1 →
  ∃ ls σ', submitted ls = [] ∧ queue_run cp st ls σ = Some σ'
           ∧ running σ' = [] ∧ pending σ' = pending σ
           ∧ concurrency σ' = concurrency σ.
Proof.
  intros Hlen. destruct (running σ) as [|[id p] [|? ?]] eqn:Hrun.
  - by exists [], σ.
  - by eapply drain_running.
  - simpl in Hlen. lia.
Qed.

(** The queue can always work off what was added. *)
Lemma drain cp st pend :
  ∀ σ, pending σ = pend → length (running σ) ≤ 1 → 1 ≤ concurrency σ →
  ∃ ls σ', submitted ls = [] ∧ queue_run cp st ls σ = Some σ' ∧ idle σ'.
Proof.
  induction pend as [|task rest IH]; intros σ Hpend Hlen Hconc.
  - destruct (drain_first cp st σ Hlen) as (ls & σ' & ? & ? & ? & Hp & _).
    exists ls, σ'. split; [done|]. split; [done|]. split; [congruence|done].
  - destruct (drain_first cp st σ Hlen)
      as (ls1 & σ1 & Hs1 & Hq1 & Hr1 & Hp1 & Hc1).
    set (σ2 := {| concurrency := concurrency σ1; added := added σ1;
                  pending := rest; running := [task];
                  settled := settled σ1; database := database σ1 |}).
    assert (queue_step cp st LStart σ1 = Some σ2) as Hq2.
    { unfold queue_step. rewrite Hp1, Hpend, Hr1.
      rewrite decide_True by (simpl; lia). done. }
    destruct task as [id p].
    destruct (drain_running cp st p id σ2 eq_refl)
      as (ls3 & σ3 & Hs3 & Hq3 & Hr3 & Hp3 & Hc3).
    destruct (IH σ3) as (ls4 & σ4 & Hs4 & Hq4 & Hidle).
    { by rewrite Hp3. }
    { rewrite Hr3. simpl. lia. }
    { rewrite Hc3. simpl. lia. }
    exists (ls1 ++ LStart :: ls3 ++ ls4), σ4. split; [|split; [|done]].
    + rewrite submitted_app. change (LStart :: ls3 ++ ls4) with ([LStart] ++ ls3 ++ ls4).
      rewrite !submitted_app, Hs1, Hs3, Hs4. done.
    + rewrite queue_run_app, Hq1. cbn [queue_run]. rewrite Hq2.
      by rewrite queue_run_app, Hq3.
Qed.

(** C5.  All store operations ([find], [insert], [update], [delete],
    [sql]) go through one queue of concurrency 1.  Whatever the handler
    submits and however the queue is scheduled: at most one operation
    is in flight; operations settle in submission order; the results
    and the database are those of running the submitted operations one
    after the other, each to completion (so a [find] followed by an
    [update] sees no other operation in between); and the queue can
    always work off what was submitted. *)
Theorem store_operations_serialized st cp db0 ls σ :
  queue_run cp st ls (createQueue 1 db0) = Some σ →
  length (running σ) ≤ 1
  ∧ in_submission_order σ
  ∧ serial cp st (submitted ls) db0 σ
  ∧ (idle σ →
     run_all cp (body st <$> submitted ls) db0 = ((settled σ).*2, database σ))
  ∧ (∃ ls' σ', submitted ls' = [] ∧ queue_run cp st ls' σ = Some σ' ∧ idle σ').
Proof.
  intros Hrun.
  destruct (queue_run_inv cp st [] db0 ls _ σ (queue_inv_init cp st db0) Hrun)
    as (Hconc & Hlen & Horder & Hserial).
  simpl in Hserial. split; [done|]. split; [done|]. split; [done|]. split.
  - intros [Hp Hr]. unfold serial, waiting in Hserial.
    rewrite Hp, Hr in Hserial. simpl in Hserial.
    by rewrite app_nil_r in Hserial.
  - apply (drain cp st (pending σ)); [done|done|lia].
Qed.

Lemma store_operations_serialized_witness :
  let c1 := CFind (Some accounts) (account_key 1) in
  let c2 := CUpdate (Some accounts) (account_key 1) (SetFn add_one) in
  let ls := [LAdd c1; LAdd c2; LStart] in
  let σ := {| concurrency := 1; added := 2;
              pending := [{| task_id := 1; task_body := body sample_store c2 |}];
              running := [{| task_id := 0; task_body := body sample_store c1 |}];
              settled := []; database := sample_db |} in
  queue_run sample_checkpoint sample_store ls (createQueue 1 sample_db) = Some σ
  ∧ length (running σ) ≤ 1
  ∧ in_submission_order σ
  ∧ serial sample_checkpoint sample_store (submitted ls) sample_db σ
  ∧ (idle σ →
     run_all sample_checkpoint (body sample_store <$> submitted ls) sample_db
     = ((settled σ).*2, database σ))
  ∧ (∃ ls' σ', submitted ls' = []
               ∧ queue_run sample_checkpoint sample_store ls' σ = Some σ'
               ∧ idle σ').
Proof.
  intros c1 c2 ls σ. split; [reflexivity|].
  apply (store_operations_serialized sample_store sample_checkpoint sample_db ls σ).
  reflexivity.
Defined.

(** The same two-step update submitted twice.  Through the queue of the
    store both increments land. *)
Example two_updates_serialized :
  let c := CUpdate (Some accounts) (account_key 1) (SetFn add_one) in
  match queue_run sample_checkpoint sample_store
          [LAdd c; LAdd c; LStart; LAdvance 0; LAdvance 0; LSettle 0;
           LStart; LAdvance 0; LAdvance 0; LSettle 0]
          (createQueue 1 sample_db) with
  | Some σ => idle σ ∧ rows_of (database σ) accounts = [account 1 12]
  | None => False
  end.
Proof. vm_compute. repeat split. Qed.

(** A queue of concurrency 2 would let the two updates interleave: both
    read balance 10 and one increment is lost.  With concurrency 1 the
    second [LStart] is refused while the first update is in flight. *)
Example two_updates_interleaved :
  let c := CUpdate (Some accounts) (account_key 1) (SetFn add_one) in
  let ls := [LAdd c; LAdd c; LStart; LStart; LAdvance 0; LAdvance 1;
             LAdvance 0; LAdvance 1; LSettle 0; LSettle 0] in
  match queue_run sample_checkpoint sample_store ls (createQueue 2 sample_db) with
  | Some σ => idle σ ∧ rows_of (database σ) accounts = [account 1 11]
  | None => False
  end
  ∧ queue_run sample_checkpoint sample_store ls (createQueue 1 sample_db) = None.
Proof. vm_compute. repeat split. Qed.

(** * Further properties of the store *)

(** ** Reads and isolation *)

(** X1.  [find] never writes: whatever the table argument and the key, the
    database is left as it was. *)
Theorem find_read_only st cp db table key :
  final (run cp (body st (CFind table key)) db) = db.
Proof.
  simpl. unfold store_find, checkOnchainTable.
  destruct table as [t|]; [|done].
  destruct (tbl_onchain t); [|done].
  rewrite ret_bind, run_bind. unfold find, getWhereCondition.
  destruct (cache_get (primaryKeysCache st) t) as [pks|]; [|done].
  rewrite ret_bind, run_query_then. done.
Qed.

Lemma body_only_on st c t :
  call_table c = Some (Some t) → OnlyOn t (body st c).
Proof.
  destruct c as [tb key|tb values policy|tb key values|tb key|q];
    intros Ht; try (by apply write_only_on).
  injection Ht as ->. simpl. apply OnlyOn_check. intros t' [= <-].
  apply OnlyOn_then, OnlyOn_find.
Qed.

Lemma exec_other_table cp s db n :
  n ≠ tbl_name (stmt_table s) → (exec cp s db).2 !! n = db !! n.
Proof.
  intros Hn. unfold exec.
  destruct (run_stmt s (rows_of db (stmt_table s)))
    as [e|[[ret new] [|ch chs]]]; simpl; [done|done|].
  unfold commit. by rewrite lookup_insert_ne.
Qed.

Lemma run_other_table {A} cp t (p : Prog A) db n :
  OnlyOn t p → n ≠ tbl_name t → final (run cp p db) !! n = db !! n.
Proof.
  intros Hp Hn. revert db.
  induction Hp as [a|e|s k Hs Hk IH]; intros db; simpl; [done|done|].
  pose proof (exec_other_table cp s db n) as Hx.
  destruct (exec cp s db) as [r db1]. simpl in *.
  rewrite IH. apply Hx. by rewrite Hs.
Qed.

(** X2.  A method called on a table touches no other table: the rows and the
    journal of every table with another name are left as they were. *)
Theorem call_leaves_other_tables st cp db c t n :
  call_table c = Some (Some t) → n ≠ tbl_name t →
  final (run cp (body st c) db) !! n = db !! n.
Proof. intros Ht Hn. apply (run_other_table cp t); [by apply body_only_on|done]. Qed.

Lemma call_leaves_other_tables_witness :
  final (run sample_checkpoint
           (body sample_store
              (CInsert (Some accounts) (One (account 2 7)) Plain))
           sample_db) !! "metadata"
  = sample_db !! "metadata".
Proof.
  apply (call_leaves_other_tables sample_store sample_checkpoint sample_db
           (CInsert (Some accounts) (One (account 2 7)) Plain) accounts).
  - reflexivity.
  - discriminate.
Defined.

(** ** Tables outside the schema *)

Lemma cache_get_fmap_None {V} (f : Table → V) (l : list Table) t :
  t ∉ l → cache_get ((λ t, (t, f t)) <$> l) t = None.
Proof.
  unfold cache_get. induction l as [|x l IH]; intros Hout; [done|].
  apply not_elem_of_cons in Hout as [Hx Hl]. simpl.
  rewrite decide_False by (simpl; congruence).
  specialize (IH Hl). destruct (list_find _ _) as [[i y]|]; simpl in *; done.
Qed.

Lemma primaryKeysCache_get_None st t :
  t ∉ schema st → cache_get (primaryKeysCache st) t = None.
Proof. apply cache_get_fmap_None. Qed.

Lemma getWhereCondition_out st t key :
  t ∉ schema st → getWhereCondition st t key = Throw TypeError.
Proof. intros H. unfold getWhereCondition. by rewrite primaryKeysCache_get_None. Qed.

Lemma run_find_out st cp t key db :
  t ∉ schema st →
  run cp (find st t key) db = {| result := inl TypeError; final := db; trace := [] |}.
Proof. intros H. unfold find. by rewrite getWhereCondition_out. Qed.

(** X3.  The primary-key columns are cached for the tables of the schema
    only.  On an onchain table that the schema does not hold, every
    call that needs them ([find], [delete], [update],
    [onConflictDoUpdate]) is rejected with a [TypeError] before any
    statement is sent. *)
Theorem outside_schema_type_error st cp db c t :
  call_table c = Some (Some t) → tbl_onchain t = true → t ∉ schema st →
  asks_key_columns c = true →
  let r := run cp (body st c) db in
  result r = inl TypeError ∧ trace r = [] ∧ final r = db.
Proof.
  intros Ht Hon Hout Hasks r. subst r.
  destruct c as [tb key|tb values [| |[o|f]]|tb key [o|f]|tb key|q];
    simplify_eq/=.
  - unfold store_find. rewrite run_checked, run_bind, run_find_out by done. done.
  - apply bool_decide_eq_true_1 in Hasks.
    unfold insert_onConflictDoUpdate.
    rewrite run_checked, builder_values_ok, ret_bind by done.
    by rewrite primaryKeysCache_get_None.
  - apply bool_decide_eq_true_1 in Hasks.
    unfold insert_onConflictDoUpdate. rewrite run_checked by done.
    destruct values as [value|[|value rest]]; [|done|].
    + rewrite run_bind. unfold upsert_one.
      rewrite run_bind, run_find_out by done. done.
    + rewrite run_bind, run_upsert_each_cons. unfold upsert_one.
      rewrite run_bind, run_find_out by done. done.
  - apply bool_decide_eq_true_1 in Hasks.
    unfold store_update.
    rewrite run_checked, builder_set_ok, ret_bind by done.
    by rewrite getWhereCondition_out.
  - unfold store_update. rewrite run_checked, run_bind, run_find_out by done.
    done.
  - unfold store_delete. rewrite run_checked by done.
    by rewrite getWhereCondition_out.
Qed.

(** An onchain table that is not part of the sample schema. *)
Lemma outside_schema_type_error_witness :
  let hidden := {| tbl_name := "hidden"; tbl_user := "hidden";
                   tbl_onchain := true; tbl_pk := ["id"%string] |} in
  let r := run sample_checkpoint
             (body sample_store (CDelete (Some hidden) (account_key 1)))
             sample_db in
  result r = inl TypeError ∧ trace r = [] ∧ final r = sample_db.
Proof.
  intros hidden.
  apply (outside_schema_type_error sample_store sample_checkpoint sample_db
           (CDelete (Some hidden) (account_key 1)) hidden).
  - reflexivity.
  - reflexivity.
  - intros Hin. apply list_elem_of_singleton in Hin. discriminate Hin.
  - reflexivity.
Defined.

(** ** Keys *)

Lemma key_conditions_agree cols key key' :
  (∀ c, c ∈ cols → key !! c = key' !! c) →
  key_conditions cols key = key_conditions cols key'.
Proof.
  intros Hagree. unfold key_conditions. apply list_fmap_ext.
  intros i c Hc. f_equal. apply Hagree. by eapply list_elem_of_lookup_2.
Qed.

Lemma found_agree t key key' db :
  (∀ c, c ∈ tbl_pk t → key !! c = key' !! c) →
  found t key db = found t key' db.
Proof. intros Hagree. unfold found. by rewrite (key_conditions_agree _ key key'). Qed.

(** X4.  Only the primary-key fields of a key count: [find], [update] and
    [delete] called with two keys that agree on the primary-key columns
    of the table do the same, statement for statement.  (A whole row
    serves as its own key.) *)
Theorem key_fields_only st cp db c t key key' :
  call_table c = Some (Some t) → call_key c = Some key →
  (∀ col, col ∈ tbl_pk t → key !! col = key' !! col) →
  run cp (body st (with_key c key')) db = run cp (body st c) db.
Proof.
  intros Ht Hkey Hagree.
  pose proof (key_conditions_agree _ _ _ Hagree) as Hw.
  pose proof (found_agree t key key' db Hagree) as Hf.
  destruct (tbl_onchain t) eqn:Hon.
  2:{ destruct c as [tb k|tb values policy|tb k values|tb k|q];
        simplify_eq/=.
      - unfold store_find. by rewrite !run_check_offchain.
      - unfold store_update. by rewrite !run_check_offchain.
      - unfold store_delete. by rewrite !run_check_offchain. }
  destruct (decide (t ∈ schema st)) as [Hin|Hout].
  - destruct c as [tb k|tb values policy|tb k [o|f]|tb k|q]; simplify_eq/=.
    + rewrite !run_store_find by done. by rewrite Hw, Hf.
    + destruct (decide (o = ∅)) as [Ho|Ho].
      * unfold store_update. by rewrite !run_checked, !builder_set_empty by done.
      * rewrite !run_store_update_obj by done. by rewrite Hw.
    + rewrite !run_store_update_fn by done. by rewrite Hw, Hf.
    + rewrite !run_store_delete by done. by rewrite Hw.
  - destruct c as [tb k|tb values policy|tb k [o|f]|tb k|q]; simplify_eq/=.
    + unfold store_find. by rewrite !run_checked, !run_bind, !run_find_out by done.
    + unfold store_update. rewrite !run_checked by done.
      unfold builder_set. case_bool_decide; [done|].
      by rewrite !ret_bind, !getWhereCondition_out by done.
    + unfold store_update.
      by rewrite !run_checked, !run_bind, !run_find_out by done.
    + unfold store_delete. rewrite !run_checked by done.
      by rewrite !getWhereCondition_out by done.
Qed.

Lemma key_fields_only_witness :
  run sample_checkpoint
    (body sample_store (with_key (CFind (Some accounts) (account_key 1))
                          (account 1 0)))
    sample_db
  = run sample_checkpoint
      (body sample_store (CFind (Some accounts) (account_key 1))) sample_db.
Proof.
  apply (key_fields_only sample_store sample_checkpoint sample_db
           (CFind (Some accounts) (account_key 1)) accounts (account_key 1)
           (account 1 0)).
  - reflexivity.
  - reflexivity.
  - intros col Hcol. apply list_elem_of_singleton in Hcol as ->.
    vm_compute. reflexivity.
Defined.

(** ** Functions and objects *)

Lemma found_of_find st cp t key db row :
  t ∈ schema st → tbl_onchain t = true →
  result (run cp (body st (CFind (Some t) key)) db) = inr (RRow row) →
  found t key db = row.
Proof.
  intros Hin Hon. simpl. rewrite run_store_find by done. simpl. congruence.
Qed.

Lemma update_found_as_object st cp db t key f row :
  t ∈ schema st → tbl_onchain t = true →
  found t key db = Some row →
  same_outcome
    (run cp (store_update st (Some t) key (SetFn f)) db)
    (run cp (store_update st (Some t) key (SetObj (f row))) db).
Proof.
  intros Hin Hon Hfound.
  rewrite run_store_update_fn by done. cbv zeta. rewrite Hfound.
  case_bool_decide as Hset.
  - unfold store_update. rewrite run_checked, builder_set_empty by done. done.
  - rewrite run_store_update_obj by done. done.
Qed.

(** X5.  [update] with a function is [update] with the object the function
    gives for the row found: when [find] resolves to a row, both
    settle alike and leave the same database. *)
Theorem update_function_as_object st cp db t key f row :
  t ∈ schema st → tbl_onchain t = true →
  result (run cp (body st (CFind (Some t) key)) db) = inr (RRow (Some row)) →
  same_outcome
    (run cp (body st (CUpdate (Some t) key (SetFn f))) db)
    (run cp (body st (CUpdate (Some t) key (SetObj (f row)))) db).
Proof.
  intros Hin Hon Hfound%found_of_find; [|done..].
  by apply update_found_as_object.
Qed.

Lemma update_function_as_object_witness :
  same_outcome
    (run sample_checkpoint
       (body sample_store (CUpdate (Some accounts) (account_key 1) (SetFn add_one)))
       sample_db)
    (run sample_checkpoint
       (body sample_store
          (CUpdate (Some accounts) (account_key 1)
             (SetObj (add_one (account 1 10)))))
       sample_db).
Proof.
  apply (update_function_as_object sample_store sample_checkpoint sample_db
           accounts (account_key 1) add_one (account 1 10)).
  - apply list_elem_of_here.
  - reflexivity.
  - vm_compute. reflexivity.
Defined.

Lemma run_upsert_single st cp t f value db :
  tbl_onchain t = true →
  let one := run cp (upsert_one st t f value) db in
  run cp (body st (CInsert (Some t) (One value) (PolicyDoUpdate (SetFn f)))) db =
  {| result := match result one with
               | inl e => inl e
               | inr rows => inr (RRows rows)
               end;
     final := final one; trace := trace one |}.
Proof.
  intros Hon one. simpl. unfold insert_onConflictDoUpdate.
  rewrite run_checked, run_bind by done. fold one.
  destruct (result one); simpl; [done|]. by rewrite app_nil_r.
Qed.

(** X6.  [onConflictDoUpdate] with a function, on a single value, is a [find]
    followed by one of two other methods: the plain insert of the value
    when [find] resolves to [null], the [update] of the row found (keyed
    by the value, with the object the function gives) otherwise. *)
Theorem upsert_function_single st cp db t f value :
  t ∈ schema st → tbl_onchain t = true →
  let upsert := run cp (body st (CInsert (Some t) (One value)
                                   (PolicyDoUpdate (SetFn f)))) db in
  match result (run cp (body st (CFind (Some t) value)) db) with
  | inr (RRow None) =>
      same_outcome upsert
        (run cp (body st (CInsert (Some t) (One value) Plain)) db)
  | inr (RRow (Some row)) =>
      same_outcome upsert
        (run cp (body st (CUpdate (Some t) value (SetObj (f row)))) db)
  | _ => False
  end.
Proof.
  intros Hin Hon upsert. subst upsert.
  rewrite run_upsert_single, run_upsert_one by done. simpl.
  rewrite run_store_find by done. simpl.
  destruct (found t value db) as [row|].
  - case_bool_decide as Hset.
    + unfold store_update. rewrite run_checked, builder_set_empty by done. done.
    + rewrite run_store_update_obj by done. split; simpl; [|done].
      by destruct (exec cp _ db).1.
  - rewrite run_insert_plain by done. split; simpl; [|done].
    by destruct (exec cp _ db).1.
Qed.

Lemma upsert_function_single_witness :
  same_outcome
    (run sample_checkpoint
       (body sample_store
          (CInsert (Some accounts) (One (account 1 0)) (PolicyDoUpdate (SetFn add_one))))
       sample_db)
    (run sample_checkpoint
       (body sample_store
          (CUpdate (Some accounts) (account 1 0) (SetObj (add_one (account 1 10)))))
       sample_db).
Proof.
  apply (upsert_function_single sample_store sample_checkpoint sample_db
           accounts add_one (account 1 0)).
  - apply list_elem_of_here.
  - reflexivity.
Defined.

(** ** Batches *)

Lemma run_all_cons cp p ps db :
  run_all cp (p :: ps) db =
  (result (run cp p db) :: (run_all cp ps (final (run cp p db))).1,
   (run_all cp ps (final (run cp p db))).2).
Proof.
  unfold run_all at 1. fold run_all.
  by destruct (run_all cp ps (final (run cp p db))).
Qed.

Lemma upsert_each_sequence st cp t f values :
  tbl_onchain t = true →
  let single v :=
    body st (CInsert (Some t) (One v) (PolicyDoUpdate (SetFn f))) in
  ∀ rows db,
  let each := run cp (upsert_each st t f values rows) db in
  match result each with
  | inr batches =>
      ∃ bs, batches = rows ++ bs
            ∧ run_all cp (single <$> values) db
              = ((λ b, inr (RRows b)) <$> bs, final each)
  | inl e =>
      ∃ committed value rest bs,
        values = committed ++ value :: rest
        ∧ (run_all cp (single <$> committed) db).1 = (λ b, inr (RRows b)) <$> bs
        ∧ (let failed :=
             run cp (single value) (run_all cp (single <$> committed) db).2 in
           result failed = inl e ∧ final each = final failed)
  end.
Proof.
  intros Hon single.
  induction values as [|value rest IH]; intros rows db each; subst each.
  - simpl. exists []. by rewrite app_nil_r.
  - rewrite run_upsert_each_cons. cbv zeta.
    pose proof (run_upsert_single st cp t f value db Hon) as Hsingle.
    cbv zeta in Hsingle. fold (single value) in Hsingle.
    destruct (result (run cp (upsert_one st t f value) db)) as [e|r] eqn:E;
      simpl.
    + exists [], value, rest, []. split; [done|]. split; [done|].
      simpl. rewrite ?run_all_nil. simpl. by rewrite Hsingle.
    + specialize (IH (rows ++ [r]) (final (run cp (upsert_one st t f value) db))).
      cbv zeta in IH.
      destruct (result (run cp (upsert_each st t f rest (rows ++ [r])) _))
        as [e|batches] eqn:E2.
      * destruct IH as (committed & value' & rest' & bs & -> & Hbs & Hres & Hfin).
        exists (value :: committed), value', rest', (r :: bs).
        split; [done|].
        change (single <$> value :: committed)
          with (single value :: (single <$> committed)).
        rewrite run_all_cons, Hsingle. cbn [result final fst snd].
        rewrite Hbs. done.
      * destruct IH as (bs & -> & Hall). exists (r :: bs).
        split; [by rewrite <- app_assoc|].
        change (single <$> value :: rest)
          with (single value :: (single <$> rest)).
        rewrite run_all_cons, Hsingle. cbn [result final].
        unfold fmap in *. by rewrite Hall.
Qed.

(** X7.  [onConflictDoUpdate] with a function over an array is the same call
    made for each value in turn: when it resolves, its results and the
    database are those of the single-value calls run one after the
    other; when it is rejected, it is with the error of the first
    single-value call that fails, and the database is as that call
    left it. *)
Theorem upsert_array_as_sequence st cp db t f values :
  tbl_onchain t = true →
  let single v :=
    body st (CInsert (Some t) (One v) (PolicyDoUpdate (SetFn f))) in
  let batch := run cp (body st (CInsert (Some t) (Many values)
                                  (PolicyDoUpdate (SetFn f)))) db in
  match result batch with
  | inr res =>
      ∃ batches, res = RBatches batches
                 ∧ run_all cp (single <$> values) db
                   = ((λ b, inr (RRows b)) <$> batches, final batch)
  | inl e =>
      ∃ committed value rest bs,
        values = committed ++ value :: rest
        ∧ (run_all cp (single <$> committed) db).1 = (λ b, inr (RRows b)) <$> bs
        ∧ (let failed :=
             run cp (single value) (run_all cp (single <$> committed) db).2 in
           result failed = inl e ∧ final batch = final failed)
  end.
Proof.
  intros Hon single batch. subst batch.
  change (body st (CInsert (Some t) (Many values) (PolicyDoUpdate (SetFn f))))
    with (insert_onConflictDoUpdate st (Some t) (Many values) (SetFn f)).
  rewrite run_upsert_array by done. cbv zeta. cbn [result final].
  pose proof (upsert_each_sequence st cp t f values Hon [] db) as Hseq.
  cbv zeta in Hseq. fold single in Hseq.
  destruct (result (run cp (upsert_each st t f values []) db)) as [e|batches].
  - exact Hseq.
  - destruct Hseq as (bs & -> & Hall). by exists bs.
Qed.

Lemma upsert_array_as_sequence_witness :
  let single v :=
    body sample_store
      (CInsert (Some accounts) (One v) (PolicyDoUpdate (SetFn add_one))) in
  let values := [account 2 0; account 1 7] in
  let batch := run sample_checkpoint
                 (body sample_store
                    (CInsert (Some accounts) (Many values)
                       (PolicyDoUpdate (SetFn add_one)))) sample_db in
  match result batch with
  | inr res =>
      ∃ batches, res = RBatches batches
                 ∧ run_all sample_checkpoint (single <$> values) sample_db
                   = ((λ b, inr (RRows b)) <$> batches, final batch)
  | inl e =>
      ∃ committed value rest bs,
        values = committed ++ value :: rest
        ∧ (run_all sample_checkpoint (single <$> committed) sample_db).1
          = (λ b, inr (RRows b)) <$> bs
        ∧ (let failed :=
             run sample_checkpoint (single value)
               (run_all sample_checkpoint (single <$> committed) sample_db).2 in
           result failed = inl e ∧ final batch = final failed)
  end.
Proof.
  apply (upsert_array_as_sequence sample_store sample_checkpoint sample_db
           accounts add_one [account 2 0; account 1 7]).
  reflexivity.
Defined.

(** ** Round trips *)

Lemma exec_delete cp t w db :
  (exec cp (Delete t w) db).1
  = inr (filter (λ r, matches w r = true) (rows_of db t))
  ∧ rows_of (exec cp (Delete t w) db).2 t
    = filter (λ r, matches w r = false) (rows_of db t).
Proof.
  destruct (exec_ok cp (Delete t w) db
              (filter (λ r, matches w r = true) (rows_of db t))
              (filter (λ r, matches w r = false) (rows_of db t))
              (Deleted <$> filter (λ r, matches w r = true) (rows_of db t)))
    as (? & ? & _); done.
Qed.

(** X8.  After [delete(table, key)], [find(table, key)] resolves to
    [null]. *)
Theorem delete_then_find st cp db t key :
  t ∈ schema st → tbl_onchain t = true →
  let deleted := run cp (body st (CDelete (Some t) key)) db in
  result (run cp (body st (CFind (Some t) key)) (final deleted))
  = inr (RRow None).
Proof.
  intros Hin Hon deleted. subst deleted. simpl.
  rewrite run_store_find, run_store_delete by done. simpl.
  do 2 f_equal. apply found_None. intros row Hrow.
  destruct (exec_delete cp t (key_conditions (tbl_pk t) key) db) as [_ Hrows].
  rewrite Hrows in Hrow. apply list_elem_of_filter in Hrow as [Hm _].
  rewrite <- matches_pk_equal. congruence.
Qed.

Lemma delete_then_find_witness :
  let deleted := run sample_checkpoint
                   (body sample_store (CDelete (Some accounts) (account_key 1)))
                   sample_db in
  result (run sample_checkpoint
            (body sample_store (CFind (Some accounts) (account_key 1)))
            (final deleted))
  = inr (RRow None).
Proof.
  apply (delete_then_find sample_store sample_checkpoint sample_db accounts
           (account_key 1)).
  - apply list_elem_of_here.
  - reflexivity.
Defined.

Lemma run_insert_fresh st cp t x policy db :
  t ∈ schema st → tbl_onchain t = true →
  has_key t x →
  (∀ row, row ∈ rows_of db t → ¬ pk_equal t x row) →
  match policy with PolicyDoUpdate (SetObj o) => o ≠ ∅ | _ => True end →
  let inserted := run cp (body st (CInsert (Some t) (One x) policy)) db in
  result inserted = inr (RRows [x])
  ∧ rows_of (final inserted) t = rows_of db t ++ [x].
Proof.
  intros Hin Hon Hkey Hfree Hpol inserted. subst inserted. simpl.
  assert (∀ oc,
            match oc with DoUpdate target _ => target = tbl_pk t | _ => True end →
            (exec cp (Insert t [x] oc) db).1 = inr [x]
            ∧ rows_of (exec cp (Insert t [x] oc) db).2 t = rows_of db t ++ [x])
    as Hexec.
  { intros oc Hoc.
    destruct (exec_insert_fresh cp t oc x db) as (? & ? & _); done. }
  destruct policy as [| |[o|f]].
  - rewrite run_insert_plain by done. simpl.
    destruct (Hexec NoClause I) as [-> ?]. done.
  - rewrite run_insert_onConflictDoNothing by done. simpl.
    destruct (Hexec DoNothing I) as [-> ?]. done.
  - rewrite run_upsert_object by done. simpl.
    destruct (Hexec (DoUpdate (tbl_pk t) o) eq_refl) as [-> ?]. done.
  - unfold insert_onConflictDoUpdate. rewrite run_checked by done.
    rewrite run_bind, run_upsert_one by done.
    replace (found t x db) with (@None Obj) by (symmetry; by apply found_None).
    simpl. destruct (Hexec NoClause I) as [-> ?]. done.
Qed.

(** X9.  Inserting a row under a fresh key and deleting it again by that key
    gives [true] and the rows the table had before. *)
Theorem insert_then_delete st cp db t x policy key :
  t ∈ schema st → tbl_onchain t = true →
  has_key t x →
  (∀ row, row ∈ rows_of db t → ¬ pk_equal t x row) →
  match policy with PolicyDoUpdate (SetObj o) => o ≠ ∅ | _ => True end →
  (∀ c, c ∈ tbl_pk t → key !! c = x !! c) →
  let inserted := run cp (body st (CInsert (Some t) (One x) policy)) db in
  let deleted := run cp (body st (CDelete (Some t) key)) (final inserted) in
  result deleted = inr (RBool true)
  ∧ rows_of (final deleted) t = rows_of db t.
Proof.
  intros Hin Hon Hkey Hfree Hpol Hagree inserted deleted.
  destruct (run_insert_fresh st cp t x policy db) as [_ Hrows]; [done..|].
  fold inserted in Hrows. subst deleted. simpl body.
  rewrite run_store_delete by done. cbv zeta. cbn [result final].
  set (w := key_conditions (tbl_pk t) key).
  destruct (exec_delete cp t w (final inserted)) as [-> ->].
  rewrite Hrows, !filter_app.
  assert (∀ row, row ∈ rows_of db t → matches w row = false) as Hold.
  { intros row Hrow. apply not_true_is_false. unfold w.
    rewrite matches_pk_equal, (pk_equal_agree t key x) by done. by apply Hfree. }
  assert (matches w x = true) as Hx.
  { unfold w. apply matches_pk_equal, (pk_equal_agree t key x); [done|].
    intros c Hc. destruct (Hkey c Hc) as [v Hv]. eauto. }
  rewrite (filter_none (λ r, matches w r = true) (rows_of db t)).
  2:{ intros row Hrow. rewrite (Hold row Hrow). done. }
  rewrite (filter_all (λ r, matches w r = false) (rows_of db t)) by done.
  rewrite !filter_cons, !filter_nil.
  rewrite decide_True, decide_False by congruence.
  by rewrite app_nil_r.
Qed.

Lemma insert_then_delete_witness :
  let inserted :=
    run sample_checkpoint
      (body sample_store (CInsert (Some accounts) (One (account 2 7)) Plain))
      sample_db in
  let deleted :=
    run sample_checkpoint
      (body sample_store (CDelete (Some accounts) (account_key 2)))
      (final inserted) in
  result deleted = inr (RBool true)
  ∧ rows_of (final deleted) accounts = rows_of sample_db accounts.
Proof.
  apply (insert_then_delete sample_store sample_checkpoint sample_db accounts
           (account 2 7) Plain (account_key 2)).
  - apply list_elem_of_here.
  - reflexivity.
  - apply row_ok_has_key. vm_compute. reflexivity.
  - apply found_None. vm_compute. reflexivity.
  - exact I.
  - intros c Hc. apply list_elem_of_singleton in Hc as ->. vm_compute. reflexivity.
Defined.

(** ** [onConflictDoNothing] *)

Lemma insert_rows_do_nothing t vs :
  Forall (λ v, row_ok t v = true) vs →
  ∀ cur, ∃ ret,
    insert_rows t DoNothing vs cur = inr (ret, cur ++ ret, Inserted <$> ret)
    ∧ sublist ret vs
    ∧ (∀ r old, r ∈ ret → old ∈ cur → conflicts (tbl_pk t) r old = false).
Proof.
  induction 1 as [|v vs Hv Hvs IH]; intros cur.
  - exists []. simpl. rewrite app_nil_r. repeat split; [done|].
    intros r old Hr. by apply elem_of_nil in Hr.
  - simpl. unfold insert_row. rewrite Hv. simpl.
    destruct (existsb (conflicts (tbl_pk t) v) cur) eqn:Ex.
    + destruct (IH cur) as (ret & -> & Hsub & Hfree).
      exists ret. split; [done|]. split; [by apply sublist_cons|done].
    + destruct (IH (cur ++ [v])) as (ret & -> & Hsub & Hfree).
      exists (v :: ret). simpl. rewrite <- app_assoc. split; [done|].
      split; [by apply sublist_skip|].
      intros r old [->|Hr]%elem_of_cons Hold.
      * by eapply existsb_false in Ex.
      * apply Hfree; [done|]. apply elem_of_app. by left.
Qed.

(** X10.  [insert(table).values(values).onConflictDoNothing()] on values that
    have their primary key is never rejected: it resolves to the values
    it inserted, in order; the table keeps every row it had, followed
    by the inserted ones; and no inserted value has the key of a row
    the table already had. *)
Theorem on_conflict_do_nothing st cp db t values :
  tbl_onchain t = true → values_list values ≠ [] →
  Forall (has_key t) (values_list values) →
  let r := run cp (body st (CInsert (Some t) values PolicyDoNothing)) db in
  ∃ rows, result r = inr (RRows rows)
          ∧ rows_of (final r) t = rows_of db t ++ rows
          ∧ sublist rows (values_list values)
          ∧ (∀ row old, row ∈ rows → old ∈ rows_of db t → ¬ pk_equal t row old).
Proof.
  intros Hon Hvs Hkeys r. subst r. simpl.
  rewrite run_insert_onConflictDoNothing by done. simpl.
  destruct (insert_rows_do_nothing t (values_list values)) with (cur := rows_of db t)
    as (ret & Hins & Hsub & Hfree).
  { eapply Forall_impl; [done|]. intros v. apply row_ok_has_key. }
  destruct (exec_ok cp (Insert t (values_list values) DoNothing) db ret
              (rows_of db t ++ ret) (Inserted <$> ret)) as (-> & Hrows & _);
    [done|].
  exists ret. split; [done|]. split; [done|]. split; [done|].
  intros row old Hrow Hold. rewrite <- conflicts_pk_equal.
  by rewrite (Hfree row old Hrow Hold).
Qed.

Lemma on_conflict_do_nothing_witness :
  let r := run sample_checkpoint
             (body sample_store
                (CInsert (Some accounts) (Many [account 1 0; account 2 7])
                   PolicyDoNothing))
             sample_db in
  ∃ rows, result r = inr (RRows rows)
          ∧ rows_of (final r) accounts = rows_of sample_db accounts ++ rows
          ∧ sublist rows [account 1 0; account 2 7]
          ∧ (∀ row old, row ∈ rows → old ∈ rows_of sample_db accounts
                        → ¬ pk_equal accounts row old).
Proof.
  apply (on_conflict_do_nothing sample_store sample_checkpoint sample_db
           accounts (Many [account 1 0; account 2 7])).
  - reflexivity.
  - discriminate.
  - repeat constructor; apply row_ok_has_key; vm_compute; reflexivity.
Defined.

(** The value whose key is taken is left out, the other one is
    inserted. *)
Example do_nothing_skips_taken_key :
  let r := run sample_checkpoint
             (body sample_store
                (CInsert (Some accounts) (Many [account 1 0; account 2 7])
                   PolicyDoNothing))
             sample_db in
  result r = inr (RRows [account 2 7])
  ∧ rows_of (final r) accounts = [account 1 10; account 2 7].
Proof. cbv zeta. split; vm_compute; reflexivity. Qed.

(** ** [update] of a row that exists *)

Lemma conflicts_key_of t x y :
  has_key t x →
  conflicts (tbl_pk t) x y = true ↔ key_of (tbl_pk t) x = key_of (tbl_pk t) y.
Proof.
  intros Hx. rewrite conflicts_pk_equal. unfold key_of, pk_equal. split.
  - intros H. apply list_fmap_ext. intros i c Hc.
    destruct (H c) as (v & -> & ->); [by eapply list_elem_of_lookup_2|done].
  - intros H c Hc. destruct (Hx c Hc) as [v Hv]. exists v. split; [done|].
    apply list_elem_of_lookup in Hc as [i Hi].
    apply (f_equal (λ l, l !! i)) in H. rewrite !list_lookup_fmap, Hi in H.
    simpl in H. congruence.
Qed.

Lemma key_of_union t o r :
  keeps_key t o → key_of (tbl_pk t) (o ∪ r) = key_of (tbl_pk t) r.
Proof.
  intros Ho. unfold key_of. apply list_fmap_ext. intros i c Hc.
  apply lookup_union_r, Ho. by eapply list_elem_of_lookup_2.
Qed.

Lemma has_key_union t (o r : Obj) : has_key t r → has_key t (o ∪ r).
Proof.
  intros Hr c Hc. apply lookup_union_is_Some. right. by apply Hr.
Qed.

Lemma matches_union t key o r :
  keeps_key t o →
  matches (key_conditions (tbl_pk t) key) (o ∪ r)
  = matches (key_conditions (tbl_pk t) key) r.
Proof.
  intros Ho. apply eq_true_iff_eq. rewrite !matches_key_conditions.
  split; intros H c Hc; destruct (H c Hc) as (v & Hk & Hr); exists v;
    (split; [done|]).
  - by rewrite lookup_union_r in Hr by (by apply Ho).
  - by rewrite lookup_union_r by (by apply Ho).
Qed.

(** On a table with distinct keys, an update that sets no key column is
    never rejected. *)
Lemma update_rows_well_keyed t o w cur :
  keeps_key t o →
  ∀ seen, well_keyed t (seen ++ cur) →
  ∃ out, update_rows t o w seen cur = inr out.
Proof.
  intros Ho. induction cur as [|r rest IH]; intros seen [Hkeys Hdup]; simpl.
  - eauto.
  - destruct (matches w r).
    + assert (key_free t (o ∪ r) (seen ++ rest) = true) as ->.
      { unfold key_free. apply forallb_forall. intros y Hy%list_elem_of_In.
        apply negb_true_iff, not_true_is_false. intros Hc.
        apply conflicts_key_of in Hc.
        2:{ apply has_key_union. rewrite Forall_app, Forall_cons in Hkeys.
            by destruct Hkeys as (_ & ? & _). }
        rewrite key_of_union in Hc by done.
        rewrite fmap_app, fmap_cons in Hdup.
        apply NoDup_app in Hdup as (_ & Hcross & Hright).
        apply NoDup_cons in Hright as [Hnotin _].
        apply elem_of_app in Hy as [Hy|Hy].
        - apply (Hcross (key_of (tbl_pk t) y)).
          + by apply list_elem_of_fmap_2.
          + rewrite <- Hc. left.
        - apply Hnotin. rewrite Hc. by apply list_elem_of_fmap_2. }
      destruct (IH (seen ++ [o ∪ r])) as [[[ret new] chs] ->]; [|eauto].
      split.
      * rewrite <- app_assoc. simpl.
        rewrite Forall_app, Forall_cons in Hkeys |- *.
        destruct Hkeys as (? & ? & ?). split; [done|].
        split; [by apply has_key_union|done].
      * rewrite <- app_assoc. simpl.
        rewrite fmap_app, fmap_cons, key_of_union by done.
        by rewrite fmap_app, fmap_cons in Hdup.
    + apply IH. by rewrite <- app_assoc.
Qed.

Lemma filter_the_one {A B} `{EqDecision B} (f : A → B) (P : A → Prop)
    `{∀ x, Decision (P x)} (l : list A) x :
  NoDup (f <$> l) → x ∈ l → (∀ y, y ∈ l → P y ↔ f y = f x) →
  filter P l = [x].
Proof.
  induction l as [|a l IH]; intros Hdup Hx HP; [by apply elem_of_nil in Hx|].
  rewrite fmap_cons in Hdup. apply NoDup_cons in Hdup as [Hnotin Hdup].
  rewrite filter_cons. apply elem_of_cons in Hx as [<-|Hx].
  - rewrite decide_True by (apply HP; [left|done]). f_equal.
    apply filter_none. intros y Hy HPy. apply HP in HPy; [|by right].
    apply Hnotin. rewrite <- HPy. by apply list_elem_of_fmap_2.
  - rewrite decide_False.
    + apply IH; [done..|]. intros y Hy. apply HP. by right.
    + intros HPa. apply HP in HPa; [|left]. apply Hnotin. rewrite HPa.
      by apply list_elem_of_fmap_2.
Qed.

Lemma filter_fmap_stable {A} (g : A → A) (p : A → bool) (l : list A) :
  (∀ x, p (g x) = p x) →
  filter (λ x, p x = true) (g <$> l) = g <$> filter (λ x, p x = true) l.
Proof.
  intros Hp. induction l as [|a l IH]; [done|].
  rewrite fmap_cons, !filter_cons, Hp.
  destruct (decide (p a = true)); by rewrite IH.
Qed.

Lemma matching_rows t key rows row :
  well_keyed t rows → row ∈ rows → pk_equal t key row →
  filter (λ r, matches (key_conditions (tbl_pk t) key) r = true) rows = [row].
Proof.
  intros [Hkeys Hdup] Hrow Heq.
  apply (filter_the_one (key_of (tbl_pk t))); [done..|].
  intros y Hy. rewrite matches_pk_equal.
  rewrite Forall_forall in Hkeys.
  rewrite <- (conflicts_key_of t y row) by (by apply Hkeys).
  rewrite conflicts_pk_equal. split.
  - intros Hy'. intros c Hc.
    destruct (Heq c Hc) as (v & Hk & Hr), (Hy' c Hc) as (v' & Hk' & Hr').
    exists v. split; congruence.
  - intros Hyr c Hc.
    destruct (Heq c Hc) as (v & Hk & Hr), (Hyr c Hc) as (v' & Hy1 & Hr').
    exists v. split; congruence.
Qed.

Lemma update_object_existing st cp db t key o row :
  t ∈ schema st → tbl_onchain t = true →
  well_keyed t (rows_of db t) →
  row ∈ rows_of db t → pk_equal t key row →
  o ≠ ∅ → keeps_key t o →
  let updated := run cp (body st (CUpdate (Some t) key (SetObj o))) db in
  result updated = inr (RRows [o ∪ row])
  ∧ result (run cp (body st (CFind (Some t) key)) (final updated))
    = inr (RRow (Some (o ∪ row)))
  ∧ well_keyed t (rows_of (final updated) t)
  ∧ (∀ r, r ∈ rows_of db t → ¬ pk_equal t key r →
          r ∈ rows_of (final updated) t).
Proof.
  intros Hin Hon Hwk Hrow Heq Ho Hkeeps updated. subst updated. simpl.
  rewrite run_store_update_obj by done. cbv zeta. cbn [result final].
  set (w := key_conditions (tbl_pk t) key).
  destruct (update_rows_well_keyed t o w (rows_of db t) Hkeeps [] Hwk)
    as [[[ret new] chs] Hup].
  pose proof (update_rows_ok _ _ _ _ _ _ _ _ Hup) as (-> & -> & ->).
  destruct (exec_ok cp (Update t o w) db _ _ _ Hup) as (-> & Hrows & _).
  simpl in Hrows. unfold w in *.
  rewrite (matching_rows t key (rows_of db t) row) by done. simpl.
  split; [done|].
  set (g := λ r, if matches (key_conditions (tbl_pk t) key) r then o ∪ r else r)
    in *.
  split; [|split].
  - rewrite run_store_find by done. simpl. do 2 f_equal.
    unfold found. rewrite Hrows.
    rewrite (filter_fmap_stable g (matches (key_conditions (tbl_pk t) key))).
    + rewrite (matching_rows t key (rows_of db t) row) by done. simpl.
      unfold g. by rewrite (proj2 (matches_pk_equal t key row) Heq).
    + intros r. unfold g.
      destruct (matches (key_conditions (tbl_pk t) key) r) eqn:E;
        [by rewrite matches_union, E|by rewrite E].
  - rewrite Hrows. destruct Hwk as [Hkeys Hdup]. split.
    + apply Forall_fmap. eapply Forall_impl; [done|]. intros r Hr. simpl.
      unfold g. destruct (matches _ r); [by apply has_key_union|done].
    + rewrite <- list_fmap_compose.
      erewrite list_fmap_ext; [exact Hdup|]. intros i r Hr. simpl. unfold g.
      destruct (matches _ r); [by apply key_of_union|done].
  - intros r Hr Hne. rewrite Hrows. apply list_elem_of_fmap. exists r.
    split; [|done]. unfold g.
    destruct (matches (key_conditions (tbl_pk t) key) r) eqn:E; [|done].
    by apply matches_pk_equal in E.
Qed.

Lemma found_the_row t key db row :
  well_keyed t (rows_of db t) → row ∈ rows_of db t → pk_equal t key row →
  found t key db = Some row.
Proof.
  intros Hwk Hrow Heq. unfold found. by rewrite (matching_rows t key _ row).
Qed.

(** X11.  On a table with distinct keys, [update] for a key that some row
    has, with an object (or a function giving an object for that row)
    that has fields but sets no key column, resolves to the row with
    the fields of the object written over it; a [find] of the key then
    returns the updated row, and the rows under other keys are still
    there. *)
Theorem update_then_find st cp db t key values row :
  t ∈ schema st → tbl_onchain t = true →
  well_keyed t (rows_of db t) →
  row ∈ rows_of db t → pk_equal t key row →
  set_of values row ≠ ∅ → keeps_key t (set_of values row) →
  let updated := run cp (body st (CUpdate (Some t) key values)) db in
  result updated = inr (RRows [set_of values row ∪ row])
  ∧ result (run cp (body st (CFind (Some t) key)) (final updated))
    = inr (RRow (Some (set_of values row ∪ row)))
  ∧ (∀ r, r ∈ rows_of db t → ¬ pk_equal t key r →
          r ∈ rows_of (final updated) t).
Proof.
  intros Hin Hon Hwk Hrow Heq Ho Hkeeps updated.
  pose proof (update_object_existing st cp db t key (set_of values row) row
                Hin Hon Hwk Hrow Heq Ho Hkeeps) as Hobj.
  cbv zeta in Hobj. destruct Hobj as (Hres & Hfind & _ & Hrest).
  assert (same_outcome updated
            (run cp (body st (CUpdate (Some t) key (SetObj (set_of values row)))) db))
    as [Hr Hf].
  { subst updated. destruct values as [o|f]; [done|].
    apply update_found_as_object; [done..|]. by apply found_the_row. }
  by rewrite Hr, Hf.
Qed.

Lemma update_then_find_witness :
  let updated := run sample_checkpoint
                   (body sample_store
                      (CUpdate (Some accounts) (account_key 1) (SetFn add_one)))
                   sample_db in
  result updated = inr (RRows [add_one (account 1 10) ∪ account 1 10])
  ∧ result (run sample_checkpoint
              (body sample_store (CFind (Some accounts) (account_key 1)))
              (final updated))
    = inr (RRow (Some (add_one (account 1 10) ∪ account 1 10)))
  ∧ (∀ r, r ∈ rows_of sample_db accounts → ¬ pk_equal accounts (account_key 1) r →
          r ∈ rows_of (final updated) accounts).
Proof.
  apply (update_then_find sample_store sample_checkpoint sample_db accounts
           (account_key 1) (SetFn add_one) (account 1 10)).
  - apply list_elem_of_here.
  - reflexivity.
  - split.
    + repeat constructor. apply row_ok_has_key. vm_compute. reflexivity.
    + vm_compute. apply NoDup_singleton.
  - vm_compute. left.
  - apply conflicts_pk_equal. vm_compute. reflexivity.
  - vm_compute. discriminate.
  - intros c Hc. apply list_elem_of_singleton in Hc as ->. vm_compute. reflexivity.
Defined.

(** The counter of the account goes from 10 to 11. *)
Example update_adds_one :
  result (run sample_checkpoint
            (body sample_store
               (CUpdate (Some accounts) (account_key 1) (SetFn add_one)))
            sample_db)
  = inr (RRows [account 1 11]).
Proof. vm_compute. reflexivity. Qed.

(** ** The two forms of [onConflictDoUpdate] *)

Lemma exec_same cp s1 s2 db :
  stmt_table s1 = stmt_table s2 →
  run_stmt s1 (rows_of db (stmt_table s1)) = run_stmt s2 (rows_of db (stmt_table s1)) →
  exec cp s1 db = exec cp s2 db.
Proof. intros Ht Hs. unfold exec. by rewrite <- Ht, Hs. Qed.

Lemma found_existsb t v db :
  is_Some (found t v db)
  ↔ existsb (conflicts (tbl_pk t) v) (rows_of db t) = true.
Proof.
  rewrite existsb_true. split.
  - intros [row [Hrow Heq]%found_Some]. exists row.
    by rewrite conflicts_pk_equal.
  - intros (row & Hrow & Hc%conflicts_pk_equal).
    destruct (found t v db) eqn:E; [done|].
    rewrite found_None in E. by destruct (E row Hrow).
Qed.

(** The native upsert of one value is the statement the per-row path
    would send for it. *)
Lemma run_stmt_upsert_one t v o db :
  run_stmt (Insert t [v] (DoUpdate (tbl_pk t) o)) (rows_of db t)
  = run_stmt match found t v db with
             | None => Insert t [v] NoClause
             | Some _ => Update t o (key_conditions (tbl_pk t) v)
             end (rows_of db t).
Proof.
  pose proof (found_existsb t v db) as Hex.
  destruct (found t v db) as [row|]; simpl; unfold insert_row.
  - rewrite (proj1 Hex) by done.
    destruct (proj1 (existsb_true _ _) (proj1 Hex ltac:(done)))
      as (r & _ & Hc%conflicts_has_key).
    rewrite Hc. simpl.
    destruct (update_rows t o _ [] (rows_of db t)) as [e|[[ret new] chs]];
      [done|]. by rewrite !app_nil_r.
  - destruct (existsb (conflicts (tbl_pk t) v) (rows_of db t)) eqn:E.
    + by destruct (proj2 Hex eq_refl).
    + done.
Qed.

(** X12.  On a single value, [onConflictDoUpdate] with an object and with the
    function that always gives that object settle alike and leave the
    same database, although the first sends one native upsert and the
    second a [find] followed by an insert or an update. *)
Theorem upsert_object_as_function st cp db t value o :
  t ∈ schema st → tbl_onchain t = true → o ≠ ∅ →
  same_outcome
    (run cp (body st (CInsert (Some t) (One value) (PolicyDoUpdate (SetObj o)))) db)
    (run cp (body st (CInsert (Some t) (One value)
                        (PolicyDoUpdate (SetFn (λ _, o))))) db).
Proof.
  intros Hin Hon Ho.
  change (body st (CInsert (Some t) (One value) (PolicyDoUpdate (SetObj o))))
    with (insert_onConflictDoUpdate st (Some t) (One value) (SetObj o)).
  rewrite run_upsert_object, run_upsert_single, run_upsert_one by done.
  cbv zeta. simpl values_list.
  rewrite (exec_same cp (Insert t [value] (DoUpdate (tbl_pk t) o))
             match found t value db with
             | None => Insert t [value] NoClause
             | Some _ => Update t o (key_conditions (tbl_pk t) value)
             end db).
  - destruct (found t value db) as [row|].
    + rewrite bool_decide_eq_false_2 by done. split; simpl; [|done].
      by destruct (exec cp _ db).1.
    + split; simpl; [|done]. by destruct (exec cp _ db).1.
  - by destruct (found t value db).
  - simpl stmt_table. apply run_stmt_upsert_one.
Qed.

Lemma upsert_object_as_function_witness :
  same_outcome
    (run sample_checkpoint
       (body sample_store
          (CInsert (Some accounts) (One (account 1 0))
             (PolicyDoUpdate (SetObj (set_balance 5)))))
       sample_db)
    (run sample_checkpoint
       (body sample_store
          (CInsert (Some accounts) (One (account 1 0))
             (PolicyDoUpdate (SetFn (λ _, set_balance 5)))))
       sample_db).
Proof.
  apply (upsert_object_as_function sample_store sample_checkpoint sample_db
           accounts (account 1 0) (set_balance 5)).
  - apply list_elem_of_here.
  - reflexivity.
  - apply insert_non_empty.
Defined.

(** Over an array the two forms part: with the same key twice in the
    batch, the native upsert is rejected as a whole, while the per-row
    path inserts the first value and updates it with the second. *)
Example upsert_array_forms_differ :
  let values := Many [account 2 0; account 2 1] in
  result (run sample_checkpoint
            (body sample_store
               (CInsert (Some accounts) values (PolicyDoUpdate (SetObj (set_balance 5)))))
            sample_db)
  = inl (SqlError CardinalityViolation)
  ∧ result (run sample_checkpoint
              (body sample_store
                 (CInsert (Some accounts) values
                    (PolicyDoUpdate (SetFn (λ _, set_balance 5)))))
              sample_db)
    = inr (RBatches [[account 2 0]; [account 2 5]]).
Proof. cbv zeta. split; vm_compute; reflexivity. Qed.

(** ** [update] of a row that is missing *)

(** X15.  [update] with a function, for a key that no row has: the
    [find] is the only statement sent, the call is rejected with
    [RecordNotFoundError] naming the table as the schema names it, and
    the database is left as it was. *)
Theorem update_function_record_not_found st cp db t key f :
  t ∈ schema st → tbl_onchain t = true →
  (∀ row, row ∈ rows_of db t → ¬ pk_equal t key row) →
  let r := run cp (body st (CUpdate (Some t) key (SetFn f))) db in
  result r = inl (RecordNotFoundError
                    ("No existing record found in table '"
                       +:+ tbl_user t +:+ "'"))
  ∧ trace r = [Sent (Select t (key_conditions (tbl_pk t) key))]
  ∧ final r = db.
Proof.
  intros Hin Hon Hno%found_None r. subst r. simpl.
  rewrite run_store_update_fn by done. by rewrite Hno.
Qed.

Lemma update_function_record_not_found_witness :
  let r := run sample_checkpoint
             (body sample_store
                (CUpdate (Some accounts) (account_key 2) (SetFn add_one)))
             sample_db in
  result r = inl (RecordNotFoundError "No existing record found in table 'accounts'")
  ∧ trace r = [Sent (Select accounts (key_conditions ["id"%string] (account_key 2)))]
  ∧ final r = sample_db.
Proof.
  apply (update_function_record_not_found sample_store sample_checkpoint
           sample_db accounts (account_key 2) add_one).
  - apply list_elem_of_here.
  - reflexivity.
  - apply found_None. vm_compute. reflexivity.
Defined.

(** ** Distinct keys *)

Lemma well_keyed_snoc t rows v :
  well_keyed t rows → has_key t v →
  (∀ r, r ∈ rows → conflicts (tbl_pk t) v r = false) →
  well_keyed t (rows ++ [v]).
Proof.
  intros [Hkeys Hdup] Hv Hfree. split.
  - apply Forall_app. split; [done|]. by apply Forall_singleton.
  - rewrite fmap_app. apply NoDup_app. split; [done|]. split.
    + intros k (r & -> & Hr)%list_elem_of_fmap Hk.
      apply list_elem_of_singleton in Hk.
      assert (conflicts (tbl_pk t) v r = true) as Hc
        by (by apply conflicts_key_of).
      by rewrite Hfree in Hc.
    + apply NoDup_singleton.
Qed.

Lemma well_keyed_filter t rows (P : Obj → Prop) `{∀ r, Decision (P r)} :
  well_keyed t rows → well_keyed t (filter P rows).
Proof.
  intros [Hkeys Hdup]. split.
  - rewrite Forall_forall in Hkeys |- *.
    intros r [_ Hr]%list_elem_of_filter. by apply Hkeys.
  - eapply sublist_NoDup; [exact Hdup|]. apply fmap_sublist, sublist_filter.
Qed.

Lemma update_rows_keeps t set w cur :
  ∀ seen ret new chs,
  well_keyed t (seen ++ cur) →
  update_rows t set w seen cur = inr (ret, new, chs) →
  well_keyed t new.
Proof.
  induction cur as [|r rest IH]; intros seen ret new chs Hwk; simpl.
  - intros [= <- <- <-]. by rewrite app_nil_r in Hwk.
  - destruct (matches w r).
    + destruct (key_free t (set ∪ r) (seen ++ rest)) eqn:Hfree; [|done].
      destruct (update_rows t set w (seen ++ [set ∪ r]) rest)
        as [e|[[ret' new'] chs']] eqn:E; [done|].
      intros [= <- <- <-]. eapply IH; [|exact E].
      destruct Hwk as [Hkeys Hdup].
      rewrite Forall_app, Forall_cons in Hkeys.
      destruct Hkeys as (Hseen & Hr & Hrest).
      rewrite fmap_app, fmap_cons in Hdup.
      apply NoDup_app in Hdup as (Hd1 & Hcross & Hd2).
      apply NoDup_cons in Hd2 as [Hnotin Hd2].
      assert (∀ y, y ∈ seen ++ rest →
                   key_of (tbl_pk t) (set ∪ r) ≠ key_of (tbl_pk t) y) as Hnew.
      { intros y Hy Hk. unfold key_free in Hfree.
        rewrite forallb_forall in Hfree.
        specialize (Hfree y (proj1 (list_elem_of_In _ _) Hy)).
        apply negb_true_iff in Hfree.
        assert (conflicts (tbl_pk t) (set ∪ r) y = true) as Hc
          by (by apply conflicts_key_of; [apply has_key_union|]).
        by rewrite Hfree in Hc. }
      rewrite <- app_assoc. simpl. split.
      * rewrite Forall_app, Forall_cons. split; [done|].
        split; [by apply has_key_union|done].
      * rewrite fmap_app, fmap_cons. apply NoDup_app. split; [done|]. split.
        -- intros k Hk [->|Hk']%elem_of_cons.
           ++ apply list_elem_of_fmap in Hk as (y & Hky & Hy).
              apply (Hnew y); [apply elem_of_app; by left|done].
           ++ apply (Hcross k Hk). by right.
        -- apply NoDup_cons. split; [|done].
           intros (y & Hky & Hy)%list_elem_of_fmap.
           apply (Hnew y); [apply elem_of_app; by right|done].
    + intros E. eapply IH; [|exact E]. by rewrite <- app_assoc.
Qed.

Lemma insert_row_keeps t oc v cur ret new chs :
  well_keyed t cur →
  insert_row t oc v cur = inr (ret, new, chs) →
  well_keyed t new.
Proof.
  intros Hwk. unfold insert_row.
  destruct (row_ok t v) eqn:Hok; simpl; [|done].
  apply row_ok_has_key in Hok.
  destruct oc as [| |target set].
  - destruct (existsb _ cur) eqn:Ex; [done|]. intros [= <- <- <-].
    apply well_keyed_snoc; [done..|]. by apply existsb_false.
  - destruct (existsb _ cur) eqn:Ex; intros [= <- <- <-]; [done|].
    apply well_keyed_snoc; [done..|]. by apply existsb_false.
  - destruct (existsb (conflicts target v) cur).
    + by apply update_rows_keeps.
    + destruct (existsb _ cur) eqn:Ex; [done|]. intros [= <- <- <-].
      apply well_keyed_snoc; [done..|]. by apply existsb_false.
Qed.

Lemma insert_rows_keeps t oc vs :
  ∀ cur ret new chs,
  well_keyed t cur →
  insert_rows t oc vs cur = inr (ret, new, chs) →
  well_keyed t new.
Proof.
  induction vs as [|v vs IH]; intros cur ret new chs Hwk; simpl.
  - by intros [= <- <- <-].
  - destruct (insert_row t oc v cur) as [e|[[ret1 cur1] chs1]] eqn:E1; [done|].
    destruct (insert_rows t oc vs cur1) as [e|[[ret2 cur2] chs2]] eqn:E2; [done|].
    intros [= <- <- <-]. eapply IH; [|exact E2]. by eapply insert_row_keeps.
Qed.

Lemma run_stmt_keeps s cur ret new chs :
  well_keyed (stmt_table s) cur →
  run_stmt s cur = inr (ret, new, chs) →
  well_keyed (stmt_table s) new.
Proof.
  intros Hwk. destruct s as [t w|t vs oc|t set w|t w]; simpl in *.
  - by intros [= <- <- <-].
  - destruct oc as [| |target set]; try (by apply insert_rows_keeps).
    destruct (distinct_keys target vs); [by apply insert_rows_keeps|done].
  - by apply (update_rows_keeps t set w cur []).
  - unfold delete_rows. intros [= <- <- <-]. by apply well_keyed_filter.
Qed.

Lemma exec_keeps cp s db :
  well_keyed (stmt_table s) (rows_of db (stmt_table s)) →
  well_keyed (stmt_table s) (rows_of (exec cp s db).2 (stmt_table s)).
Proof.
  intros Hwk.
  destruct (run_stmt s (rows_of db (stmt_table s)))
    as [e|[[ret new] chs]] eqn:E.
  - by rewrite (exec_failed _ _ _ _ E).
  - destruct (exec_ok cp s db ret new chs E) as (_ & -> & _).
    by eapply run_stmt_keeps.
Qed.

Lemma run_keeps {A} cp t (p : Prog A) db :
  OnlyOn t p → well_keyed t (rows_of db t) →
  well_keyed t (rows_of (final (run cp p db)) t).
Proof.
  intros Hp. revert db. induction Hp as [a|e|s k Hs Hk IH]; intros db Hwk;
    simpl; [done|done|].
  pose proof (exec_keeps cp s db) as Hx. rewrite Hs in Hx.
  destruct (exec cp s db) as [r db1]. simpl in *. apply IH, Hx, Hwk.
Qed.

(** X13.  Whatever method is called on a table, if every row has its primary
    key and no two rows share one before the call, the same holds after
    it, whether the call resolves or is rejected. *)
Theorem calls_keep_keys_distinct st cp db c t :
  call_table c = Some (Some t) →
  well_keyed t (rows_of db t) →
  well_keyed t (rows_of (final (run cp (body st c) db)) t).
Proof. intros Ht Hwk. by apply run_keeps; [apply body_only_on|]. Qed.

Lemma calls_keep_keys_distinct_witness :
  well_keyed accounts
    (rows_of (final (run sample_checkpoint
                       (body sample_store
                          (CInsert (Some accounts)
                             (Many [account 2 0; account 1 7])
                             (PolicyDoUpdate (SetFn add_one))))
                       sample_db)) accounts).
Proof.
  apply (calls_keep_keys_distinct sample_store sample_checkpoint sample_db
           (CInsert (Some accounts) (Many [account 2 0; account 1 7])
              (PolicyDoUpdate (SetFn add_one))) accounts).
  - reflexivity.
  - split.
    + repeat constructor. apply row_ok_has_key. vm_compute. reflexivity.
    + vm_compute. apply NoDup_singleton.
Defined.

(** ** Inserting several rows *)

Lemma well_keyed_fresh t cur v vs :
  well_keyed t (cur ++ v :: vs) →
  row_ok t v = true
  ∧ existsb (conflicts (tbl_pk t) v) cur = false
  ∧ existsb (conflicts (tbl_pk t) v) vs = false.
Proof.
  intros [Hkeys Hdup].
  rewrite Forall_app, Forall_cons in Hkeys. destruct Hkeys as (_ & Hv & _).
  rewrite fmap_app, fmap_cons in Hdup.
  apply NoDup_app in Hdup as (_ & Hcross & Hright).
  apply NoDup_cons in Hright as [Hnotin _].
  split; [by apply row_ok_has_key|].
  split; apply existsb_false; intros r Hr; apply not_true_is_false;
    intros Hc%conflicts_key_of; try done.
  - apply (Hcross (key_of (tbl_pk t) r)); [by apply list_elem_of_fmap_2|].
    rewrite <- Hc. left.
  - apply Hnotin. rewrite Hc. by apply list_elem_of_fmap_2.
Qed.

Lemma insert_rows_fresh t oc vs :
  match oc with DoUpdate target _ => target = tbl_pk t | _ => True end →
  ∀ cur, well_keyed t (cur ++ vs) →
  insert_rows t oc vs cur = inr (vs, cur ++ vs, Inserted <$> vs).
Proof.
  intros Hoc. induction vs as [|v vs IH]; intros cur Hwk; simpl.
  - by rewrite app_nil_r.
  - destruct (well_keyed_fresh t cur v vs Hwk) as (Hok & Hfree & _).
    unfold insert_row. rewrite Hok. simpl.
    replace (cur ++ v :: vs) with ((cur ++ [v]) ++ vs) in Hwk |- *
      by (by rewrite <- app_assoc).
    destruct oc as [| |target set]; subst; rewrite ?Hfree, (IH _ Hwk); done.
Qed.

Lemma distinct_keys_well_keyed t cur vs :
  well_keyed t (cur ++ vs) → distinct_keys (tbl_pk t) vs = true.
Proof.
  revert cur. induction vs as [|v vs IH]; intros cur Hwk; [done|]. simpl.
  destruct (well_keyed_fresh t cur v vs Hwk) as (_ & _ & ->). simpl.
  apply (IH (cur ++ [v])). by rewrite <- app_assoc.
Qed.

(** X14.  Inserting an array of rows in one statement (plain, or with
    [onConflictDoNothing], or with [onConflictDoUpdate] and an object):
    when the rows have their keys, and these differ from one another
    and from the keys in the table, the call resolves to the rows in
    order, the table holds its former rows followed by them, and a
    [find] with the key of any of them returns it. *)
Theorem insert_many_then_find st cp db t values policy :
  t ∈ schema st → tbl_onchain t = true →
  values_list values ≠ [] →
  well_keyed t (rows_of db t ++ values_list values) →
  match policy with
  | PolicyDoUpdate (SetObj o) => o ≠ ∅
  | PolicyDoUpdate (SetFn _) => False
  | _ => True
  end →
  let inserted := run cp (body st (CInsert (Some t) values policy)) db in
  result inserted = inr (RRows (values_list values))
  ∧ rows_of (final inserted) t = rows_of db t ++ values_list values
  ∧ (∀ x key, x ∈ values_list values →
       (∀ c, c ∈ tbl_pk t → key !! c = x !! c) →
       result (run cp (body st (CFind (Some t) key)) (final inserted))
       = inr (RRow (Some x))).
Proof.
  intros Hin Hon Hvs Hwk Hpol inserted.
  set (vs := values_list values) in *.
  assert (∀ oc,
            match oc with DoUpdate target _ => target = tbl_pk t | _ => True end →
            (exec cp (Insert t vs oc) db).1 = inr vs
            ∧ rows_of (exec cp (Insert t vs oc) db).2 t = rows_of db t ++ vs)
    as Hexec.
  { intros oc Hoc.
    destruct (exec_ok cp (Insert t vs oc) db vs (rows_of db t ++ vs)
                (Inserted <$> vs)) as (? & ? & _); [|done].
    simpl. rewrite (insert_rows_fresh t oc vs Hoc _ Hwk).
    destruct oc as [| |target set]; [done..|]. subst target.
    by rewrite (distinct_keys_well_keyed t (rows_of db t) vs Hwk). }
  assert (result inserted = inr (RRows vs)
          ∧ rows_of (final inserted) t = rows_of db t ++ vs) as [Hres Hrows].
  { subst inserted. simpl body. destruct policy as [| |[o|f]]; [| | |done].
    - rewrite run_insert_plain by done. simpl. fold vs.
      destruct (Hexec NoClause I) as [-> ?]. done.
    - rewrite run_insert_onConflictDoNothing by done. simpl. fold vs.
      destruct (Hexec DoNothing I) as [-> ?]. done.
    - rewrite run_upsert_object by done. simpl. fold vs.
      destruct (Hexec (DoUpdate (tbl_pk t) o) eq_refl) as [-> ?]. done. }
  split; [done|]. split; [done|].
  intros x key Hx Hagree. simpl body. rewrite run_store_find by done. simpl.
  do 2 f_equal. apply found_the_row.
  - by rewrite Hrows.
  - rewrite Hrows. apply elem_of_app. by right.
  - apply (pk_equal_agree t key x); [done|].
    destruct Hwk as [Hkeys _]. rewrite Forall_forall in Hkeys.
    intros c Hc. destruct (Hkeys x) with (c := c) as [v Hv];
      [apply elem_of_app; by right|done|]. eauto.
Qed.

Lemma insert_many_then_find_witness :
  let values := Many [account 2 7; account 3 9] in
  let inserted := run sample_checkpoint
                    (body sample_store (CInsert (Some accounts) values Plain))
                    sample_db in
  result inserted = inr (RRows (values_list values))
  ∧ rows_of (final inserted) accounts
    = rows_of sample_db accounts ++ values_list values
  ∧ (∀ x key, x ∈ values_list values →
       (∀ c, c ∈ tbl_pk accounts → key !! c = x !! c) →
       result (run sample_checkpoint
                 (body sample_store (CFind (Some accounts) key)) (final inserted))
       = inr (RRow (Some x))).
Proof.
  apply (insert_many_then_find sample_store sample_checkpoint sample_db accounts
           (Many [account 2 7; account 3 9]) Plain).
  - apply list_elem_of_here.
  - reflexivity.
  - discriminate.
  - split.
    + repeat constructor; apply row_ok_has_key; vm_compute; reflexivity.
    + apply (bool_decide_unpack _). vm_compute. exact I.
  - exact I.
Defined.
